(** * ssi-service: the Bolt-backed key/value substrate (package storage)

    A shallow embedding of [pkg/storage/bolt.go] together with the part of
    the bbolt API it calls, and the properties of the KV substrate and of
    the revocation-index allocator stated in the design document. *)

From Stdlib Require Import ZArith.
From stdpp Require Import gmap strings list fin_maps sorting.

Open Scope string_scope.

(** ** Go values *)

(** A Go [[]byte] holds a byte sequence; where the code tests a slice
    against [nil] the slice is an [option bytes] and [None] is [nil]. *)
Abbreviation bytes := (list Byte.byte).

(** Go [error] values: [errors.New]/[fmt.Errorf] and [errors.Wrap]. *)
Inductive error : Type :=
| ErrNew (msg : string)
| ErrWrap (cause : error) (msg : string).

(** How a Go call ends: it returns normally, returns a non-nil [error],
    or panics. *)
Inductive outcome (A : Type) : Type :=
| Ok (a : A)
| Err (e : error)
| Panic (reason : string).
Arguments Ok {A} a.
Arguments Err {A} e.
Arguments Panic {A} reason.

Definition is_Err {A} (r : outcome A) : Prop :=
  match r with Err _ => True | _ => False end.

(** ** The bbolt API used by the package *)

Module bolt.

(** A bucket maps keys to values; the root of a database maps bucket names
    to buckets.  The package only ever creates top-level buckets holding
    plain key/value pairs. *)
Abbreviation Bucket := (gmap string bytes).
Abbreviation Root := (gmap string (gmap string bytes)).

(** A database: its committed root, whether it is open, and the error (if
    any) that flushing a commit to disk reports. *)
Record DB : Type := mkDB {
  root : Root;
  opened : bool;
  sync_err : option error;
}.

(** A transaction works on its own copy of the root. A [*bolt.Bucket] is
    a reference into the transaction: it is modelled by the bucket's name,
    and every bucket operation reads and updates the transaction. *)
Abbreviation Tx := (gmap string (gmap string bytes)).

Definition MaxKeySize : Z := 32768.
Definition MaxValueSize : Z := 2147483646.

Definition ErrDatabaseNotOpen : error := ErrNew "database not open".
Definition ErrBucketNameRequired : error := ErrNew "bucket name required".
Definition ErrKeyRequired : error := ErrNew "key required".
Definition ErrKeyTooLarge : error := ErrNew "key too large".
Definition ErrValueTooLarge : error := ErrNew "value too large".

(** [tx.Bucket(name)]: [nil] when there is no such bucket. *)
Definition Tx_Bucket (tx : Tx) (name : string) : option string :=
  match tx !! name with
  | Some _ => Some name
  | None => None
  end.

(** [tx.CreateBucketIfNotExists(name)] *)
Definition Tx_CreateBucketIfNotExists (tx : Tx) (name : string)
  : Tx * outcome string :=
  if decide (name = "") then (tx, Err ErrBucketNameRequired)
  else match tx !! name with
       | Some _ => (tx, Ok name)
       | None => (<[name := ∅]> tx, Ok name)
       end.

(** [bucket.Get(key)]: [nil] when the key is absent. *)
Definition Bucket_Get (tx : Tx) (bucket : string) (key : string) : option bytes :=
  tx !! bucket ≫= (λ b, b !! key).

(** [bucket.Put(key, value)] *)
Definition Bucket_Put (tx : Tx) (bucket : string) (key : string) (value : bytes)
  : Tx * option error :=
  if decide (key = "") then (tx, Some ErrKeyRequired)
  else if (Z.of_nat (String.length key) >? MaxKeySize)%Z then (tx, Some ErrKeyTooLarge)
  else if (Z.of_nat (length value) >? MaxValueSize)%Z then (tx, Some ErrValueTooLarge)
  else (alter (insert key value) bucket tx, None).

(** [bucket.Delete(key)]: nothing happens when the key is absent. *)
Definition Bucket_Delete (tx : Tx) (bucket : string) (key : string)
  : Tx * option error :=
  (alter (delete key) bucket tx, None).

(** [bucket.Cursor()] walks the pairs of a bucket in the byte order of
    their keys ([bytes.Compare]). *)
Definition key_le (x y : string * bytes) : Prop := String.le x.1 y.1.

#[global] Instance key_le_dec : RelDecision key_le.
Proof. intros x y. unfold key_le. apply _. Defined.

#[global] Instance key_le_trans : Transitive key_le.
Proof. intros x y z. unfold key_le. apply transitivity. Qed.

#[global] Instance key_le_total : Total key_le.
Proof. intros x y. unfold key_le. apply total, _. Qed.

Definition Bucket_Cursor (tx : Tx) (bucket : string) : list (string * bytes) :=
  match tx !! bucket with
  | Some b => merge_sort key_le (map_to_list b)
  | None => []
  end.

(** [cursor.Seek(seek)]: the cursor moves to the first key that is not
    below [seek]; the result is what is left to visit from there on, the
    current pair first. *)
Fixpoint Cursor_Seek (c : list (string * bytes)) (seek : string)
  : list (string * bytes) :=
  match c with
  | [] => []
  | kv :: rest =>
      if decide (String.le seek kv.1) then kv :: rest else Cursor_Seek rest seek
  end.

(** [db.Begin(writable)] *)
Definition Begin (db : DB) : outcome Tx :=
  if opened db then Ok (root db) else Err ErrDatabaseNotOpen.

(** [tx.Commit()]: the working root becomes the committed one, unless
    writing it out fails, in which case the transaction is rolled back. *)
Definition Commit (db : DB) (tx : Tx) : DB * option error :=
  match sync_err db with
  | Some e => (db, Some e)
  | None => (mkDB tx (opened db) (sync_err db), None)
  end.

(** [tx.Rollback()]: the working root is dropped. *)
Definition Rollback (db : DB) (tx : Tx) : DB * option error := (db, None).

(** [db.Update(fn)]: [fn] runs in a writable transaction which is committed
    when [fn] returns [nil] and rolled back when it returns an error or
    panics.  [S] is the state of the variables the closure captures. *)
Definition Update {S} (db : DB) (fn : Tx → S → Tx * S * outcome unit) (s : S)
  : DB * S * outcome unit :=
  match Begin db with
  | Ok t =>
      match fn t s with
      | (t', s', Ok _) =>
          match Commit db t' with
          | (db', None) => (db', s', Ok ())
          | (db', Some e) => (db', s', Err e)
          end
      | (t', s', Err e) => ((Rollback db t').1, s', Err e)
      | (t', s', Panic p) => ((Rollback db t').1, s', Panic p)
      end
  | Err e => (db, s, Err e)
  | Panic p => (db, s, Panic p)
  end.

(** [db.View(fn)]: [fn] runs in a read-only transaction. *)
Definition View {S} (db : DB) (fn : Tx → S → S * outcome unit) (s : S)
  : S * outcome unit :=
  match Begin db with
  | Ok t => fn t s
  | Err e => (s, Err e)
  | Panic p => (s, Panic p)
  end.

End bolt.

(** ** Package storage: the BoltDB implementation *)

(** [BoltDB] wraps an initialised [*bolt.DB]. *)
Abbreviation BoltDB := bolt.DB.

(** The closure returned by [writeFunc]. *)
Definition writeFunc (namespace key : string) (value : bytes)
  : bolt.Tx → bolt.Tx * outcome unit :=
  λ tx,
    match bolt.Tx_CreateBucketIfNotExists tx namespace with
    | (tx, Ok bucket) =>
        match bolt.Bucket_Put tx bucket key value with
        | (tx, None) => (tx, Ok ())
        | (tx, Some err) => (tx, Err err)
        end
    | (tx, Err err) => (tx, Err err)
    | (tx, Panic p) => (tx, Panic p)
    end.

(** A closure that captures nothing. *)
Definition closure0 (f : bolt.Tx → bolt.Tx * outcome unit)
  : bolt.Tx → unit → bolt.Tx * unit * outcome unit :=
  λ tx _, let '(tx', r) := f tx in (tx', (), r).

Definition Write (b : BoltDB) (namespace key : string) (value : bytes)
  : BoltDB * outcome unit :=
  let '(b', _, r) := bolt.Update b (closure0 (writeFunc namespace key value)) () in
  (b', r).

Definition Read (b : BoltDB) (namespace key : string)
  : option bytes * outcome unit :=
  bolt.View b
    (λ tx (result : option bytes),
       match bolt.Tx_Bucket tx namespace with
       | None => (result, Ok ())
       | Some bucket => (bolt.Bucket_Get tx bucket key, Ok ())
       end)
    None.

Definition Delete (b : BoltDB) (namespace key : string) : BoltDB * outcome unit :=
  let '(b', _, r) :=
    bolt.Update b
      (closure0 (λ tx,
         match bolt.Tx_Bucket tx namespace with
         | None => (tx, Err (ErrNew ("namespace<" +:+ namespace +:+ "> does not exist")))
         | Some bucket =>
             match bolt.Bucket_Delete tx bucket key with
             | (tx, None) => (tx, Ok ())
             | (tx, Some err) => (tx, Err err)
             end
         end)) () in
  (b', r).

(** The loop of [ReadPrefix]: it runs while the cursor has a current key
    and that key has the prefix, storing each pair in [result]. *)
Fixpoint ReadPrefix_loop (c : list (string * bytes)) (prefix : string)
    (result : gmap string bytes) : gmap string bytes :=
  match c with
  | [] => result
  | (k, v) :: rest =>
      if String.prefix prefix k
      then ReadPrefix_loop rest prefix (<[k := v]> result)
      else result
  end.

(** The assignment [result[string(k)] = v], and the test of the loop. *)
Abbreviation assign := (λ (result : gmap string bytes) (kv : string * bytes),
                          <[kv.1 := kv.2]> result).
Abbreviation has_prefix p :=
  (λ kv : string * bytes, String.prefix p kv.1 = true).

Definition ReadPrefix (b : BoltDB) (namespace prefix : string)
  : gmap string bytes * outcome unit :=
  bolt.View b
    (λ tx (result : gmap string bytes),
       match bolt.Tx_Bucket tx namespace with
       | None => (result, Ok ())
       | Some bucket =>
           let cursor := bolt.Bucket_Cursor tx bucket in
           (ReadPrefix_loop (bolt.Cursor_Seek cursor prefix) prefix result, Ok ())
       end)
    ∅.

Definition errNotEqualLength : error :=
  ErrNew "namespaces, keys, and values, are not of equal length".

Definition index_out_of_range : string := "index out of range".

(** The body of the loop [for i := range namespaces] of [WriteMany], from
    index [i] on; [rest] is [namespaces[i:]].  Indexing [keys] or [values]
    past their length panics. *)
Fixpoint WriteMany_loop (rest : list string) (i : nat) (keys : list string)
    (values : list bytes) (tx : bolt.Tx) : bolt.Tx * outcome unit :=
  match rest with
  | [] => (tx, Ok ())
  | namespace :: rest =>
      match bolt.Tx_CreateBucketIfNotExists tx namespace with
      | (tx, Ok bucket) =>
          match keys !! i, values !! i with
          | Some key, Some value =>
              match bolt.Bucket_Put tx bucket key value with
              | (tx, None) => WriteMany_loop rest (S i) keys values tx
              | (tx, Some err) => (tx, Err err)
              end
          | _, _ => (tx, Panic index_out_of_range)
          end
      | (tx, Err err) => (tx, Err err)
      | (tx, Panic p) => (tx, Panic p)
      end
  end.

Definition WriteMany (b : BoltDB) (namespaces keys : list string)
    (values : list bytes) : BoltDB * outcome unit :=
  if bool_decide (length namespaces ≠ length keys)
     && bool_decide (length namespaces ≠ length values)
  then (b, Err errNotEqualLength)
  else
    let '(b', _, r) :=
      bolt.Update b (closure0 (WriteMany_loop namespaces 0 keys values)) () in
    (b', r).

(** *** Execute *)

(** [boltTx.Write] *)
Definition boltTx_Write (btx : bolt.Tx) (namespace key : string) (value : bytes)
  : bolt.Tx * outcome unit :=
  writeFunc namespace key value btx.

(** A [BusinessLogicFunc] is handed the transaction as a [Tx], whose only
    method is [Write]: it is a tree of writes, each continued by the
    error the write returned, ending when the function returns its
    [(result, err)] pair or panics. *)
Inductive BusinessLogicFunc (A : Type) : Type :=
| BLReturn (result : A) (err : option error)
| BLPanic (reason : string)
| BLWrite (namespace key : string) (value : bytes)
          (k : option error → BusinessLogicFunc A).
Arguments BLReturn {A} result err.
Arguments BLPanic {A} reason.
Arguments BLWrite {A} namespace key value k.

Fixpoint call {A} (fn : BusinessLogicFunc A) (btx : bolt.Tx)
  : bolt.Tx * outcome A :=
  match fn with
  | BLReturn result None => (btx, Ok result)
  | BLReturn _ (Some err) => (btx, Err err)
  | BLPanic p => (btx, Panic p)
  | BLWrite namespace key value k =>
      match boltTx_Write btx namespace key value with
      | (btx, Ok _) => call (k None) btx
      | (btx, Err err) => call (k (Some err)) btx
      | (btx, Panic p) => (btx, Panic p)
      end
  end.

Record WatchKey : Type := { Namespace : string; Key : string }.

Definition Execute {A} (b : BoltDB) (businessLogicFunc : BusinessLogicFunc A)
    (_ : list WatchKey) : BoltDB * outcome A :=
  match bolt.Begin b with
  | Err err => (b, Err (ErrWrap err "beginning transaction"))
  | Panic p => (b, Panic p)
  | Ok t =>
      match call businessLogicFunc t with
      | (t, Err err) =>
          match bolt.Rollback b t with
          | (b, Some rollbackErr) =>
              (b, Err (ErrWrap rollbackErr "rolling back transaction"))
          | (b, None) => (b, Err (ErrWrap err "executing business logic func"))
          end
      | (t, Ok result) =>
          match bolt.Commit b t with
          | (b, Some err) => (b, Err (ErrWrap err "committing transaction"))
          | (b, None) => (b, Ok result)
          end
      | (t, Panic p) => ((bolt.Rollback b t).1, Panic p)
      end
  end.

(** The writes [fn] performs with success when it is called on [btx], in
    order.  This is a ghost trace: [Execute] does not compute it. *)
Fixpoint writes_of {A} (fn : BusinessLogicFunc A) (btx : bolt.Tx)
  : list (string * string * bytes) :=
  match fn with
  | BLReturn _ _ | BLPanic _ => []
  | BLWrite namespace key value k =>
      match boltTx_Write btx namespace key value with
      | (btx, Ok _) => (namespace, key, value) :: writes_of (k None) btx
      | (btx, Err err) => writes_of (k (Some err)) btx
      | (btx, Panic p) => []
      end
  end.

(** The value of the last write of a trace to [(namespace, key)]. *)
Fixpoint last_write (ws : list (string * string * bytes)) (namespace key : string)
  : option bytes :=
  match ws with
  | [] => None
  | (ns, k, v) :: ws =>
      match last_write ws namespace key with
      | Some v' => Some v'
      | None => if decide (ns = namespace ∧ k = key) then Some v else None
      end
  end.

(** The batch of a call of [WriteMany], entry by entry. *)
Definition batch (namespaces keys : list string) (values : list bytes)
  : list (string * string * bytes) :=
  zip (zip namespaces keys) values.

(** *** Updaters *)

(** The [Updater] interface. *)
Record Updater : Type := {
  Updater_Update : bytes → outcome bytes;
  Updater_Validate : bytes → outcome unit;
}.

(** The [ResponseSettingUpdater] interface: an [Updater] whose
    [SetUpdatedResponse] stores a response in the receiver, which the
    receiver's [Update] and [Validate] then see. *)
Record ResponseSettingUpdater : Type := {
  SetUpdatedResponse : bytes → Updater;
}.

(** The JSON codec ([github.com/goccy/go-json]) at the type
    [map[string]any].  [json_Unmarshal] into a nil map returns an error,
    or leaves the map nil ([None], for the document [null]), or allocates
    it. *)
Class JSON : Type := {
  any : Type;
  json_Unmarshal : bytes → error + option (gmap string any);
  json_Marshal : option (gmap string any) → error + bytes;
}.

Section UpdaterWithMap.
Context `{JSON}.

Record UpdaterWithMap : Type := { Values : gmap string any }.

Definition UpdaterWithMap_Validate (u : UpdaterWithMap) (_ : bytes) : outcome unit :=
  Ok ().

Definition NewUpdater (values : gmap string any) : UpdaterWithMap :=
  {| Values := values |}.

(** [for k, val := range u.Values { model[k] = val }]: assigning to an
    entry of a nil map panics. *)
Fixpoint assign_entries (entries : list (string * any))
    (model : option (gmap string any)) : outcome (option (gmap string any)) :=
  match entries with
  | [] => Ok model
  | (k, val) :: entries =>
      match model with
      | None => Panic "assignment to entry in nil map"
      | Some m => assign_entries entries (Some (<[k := val]> m))
      end
  end.

Definition UpdaterWithMap_Update (u : UpdaterWithMap) (v : bytes) : outcome bytes :=
  match json_Unmarshal v with
  | inl err => Err (ErrWrap err "unmarshalling json")
  | inr model =>
      match assign_entries (map_to_list (Values u)) model with
      | Ok model =>
          match json_Marshal model with
          | inl err => Err (ErrWrap err "marshalling updated struct")
          | inr data => Ok data
          end
      | Err err => Err err
      | Panic p => Panic p
      end
  end.

(** [UpdaterWithMap] implements [Updater]. *)
Definition UpdaterWithMap_Updater (u : UpdaterWithMap) : Updater :=
  {| Updater_Update := UpdaterWithMap_Update u;
     Updater_Validate := UpdaterWithMap_Validate u |}.

End UpdaterWithMap.

(** The smallest codec: its only documents are [null] and the empty
    object, and it has no value to put in an object. *)
Definition bytes_eqb (x y : bytes) : bool :=
  bool_decide (Byte.to_N <$> x = Byte.to_N <$> y).

Definition empty_object_codec : JSON :=
  {| any := Empty_set;
     json_Unmarshal v :=
       if bytes_eqb v (String.list_byte_of_string "null") then inr None
       else if bytes_eqb v (String.list_byte_of_string "{}") then inr (Some ∅)
       else inl (ErrNew "invalid character");
     json_Marshal model :=
       match model with
       | None => inr (String.list_byte_of_string "null")
       | Some _ => inr (String.list_byte_of_string "{}")
       end |}.

Definition updateTx (tx : bolt.Tx) (namespace key : string) (updater : Updater)
  : bolt.Tx * outcome bytes :=
  match bolt.Tx_Bucket tx namespace with
  | None => (tx, Err (ErrNew ("namespace<" +:+ namespace +:+ "> does not exist")))
  | Some bucket =>
      match bolt.Bucket_Get tx bucket key with
      | None => (tx, Err (ErrNew ("key not found " +:+ key)))
      | Some v =>
          match Updater_Validate updater v with
          | Err err => (tx, Err (ErrWrap err "validating update"))
          | Panic p => (tx, Panic p)
          | Ok _ =>
              match Updater_Update updater v with
              | Err err => (tx, Err err)
              | Panic p => (tx, Panic p)
              | Ok data =>
                  match bolt.Bucket_Put tx bucket key data with
                  | (tx, Some err) => (tx, Err (ErrWrap err "writing to db"))
                  | (tx, None) => (tx, Ok data)
                  end
              end
          end
      end
  end.

(** The closure returned by [updateTxFn]; it captures [updatedData]. *)
Definition updateTxFn (namespace key : string) (updater : Updater)
  : bolt.Tx → option bytes → bolt.Tx * option bytes * outcome unit :=
  λ tx updatedData,
    match updateTx tx namespace key updater with
    | (tx, Ok data) => (tx, Some data, Ok ())
    | (tx, Err err) => (tx, updatedData, Err err)
    | (tx, Panic p) => (tx, updatedData, Panic p)
    end.

(** The bytes of a slice, [nil] being the empty slice. *)
Definition slice (s : option bytes) : bytes := default [] s.

(** [UpdateValueAndOperation] returns [(first, op, err)], the closure
    captures [first] and [op]. *)
Definition UpdateValueAndOperation (b : BoltDB) (namespace key : string)
    (updater : Updater) (opNamespace opKey : string)
    (opUpdater : ResponseSettingUpdater)
  : BoltDB * (option bytes * option bytes) * outcome unit :=
  bolt.Update b
    (λ tx '(first, op),
       match updateTxFn namespace key updater tx first with
       | (tx, first, Ok _) =>
           let opUpdater := SetUpdatedResponse opUpdater (slice first) in
           let '(tx, op, r) := updateTxFn opNamespace opKey opUpdater tx op in
           (tx, (first, op), r)
       | (tx, first, Err err) => (tx, (first, op), Err err)
       | (tx, first, Panic p) => (tx, (first, op), Panic p)
       end)
    (None, None).

(** [BoltDB.Update] returns [(updatedData, err)]. *)
Definition Update `{JSON} (b : BoltDB) (namespace key : string)
    (values : gmap string any) : BoltDB * option bytes * outcome unit :=
  bolt.Update b
    (updateTxFn namespace key (UpdaterWithMap_Updater (NewUpdater values))) None.

(** ** Package storage: the other operations of BoltDB *)

(** [cursor.First()]: the walk starts at the first pair. *)
Definition Cursor_First (c : list (string * bytes)) : list (string * bytes) := c.

Definition ErrBucketNotFound : error := ErrNew "bucket not found".

(** [tx.DeleteBucket(name)]: an error when there is no such bucket. *)
Definition Tx_DeleteBucket (tx : bolt.Tx) (name : string)
  : bolt.Tx * option error :=
  match tx !! name with
  | Some _ => (delete name tx, None)
  | None => (tx, Some ErrBucketNotFound)
  end.

(** [Exists]: the closure captures [exists] and [result]. *)
Definition Exists (b : BoltDB) (namespace key : string) : bool * outcome unit :=
  let '(exists_, result, err) :=
    bolt.View b
      (λ tx '(exists_, result),
         match bolt.Tx_Bucket tx namespace with
         | None => ((false, result), Ok ())
         | Some bucket => ((exists_, bolt.Bucket_Get tx bucket key), Ok ())
         end)
      (true, (None : option bytes)) in
  ((match result with None => false | Some _ => exists_ end), err).

(** The loop of [ReadAll], from the cursor's current pair on. *)
Fixpoint ReadAll_loop (c : list (string * bytes)) (result : gmap string bytes)
  : gmap string bytes :=
  match c with
  | [] => result
  | (k, v) :: rest => ReadAll_loop rest (<[k := v]> result)
  end.

Definition ReadAll (b : BoltDB) (namespace : string)
  : gmap string bytes * outcome unit :=
  bolt.View b
    (λ tx (result : gmap string bytes),
       match bolt.Tx_Bucket tx namespace with
       | None => (result, Ok ())
       | Some bucket =>
           let cursor := bolt.Bucket_Cursor tx bucket in
           (ReadAll_loop (Cursor_First cursor) result, Ok ())
       end)
    ∅.

(** The loop of [ReadAllKeys]: [result = append(result, string(k))]. *)
Fixpoint ReadAllKeys_loop (c : list (string * bytes)) (result : list string)
  : list string :=
  match c with
  | [] => result
  | (k, _) :: rest => ReadAllKeys_loop rest (result ++ [k])%list
  end.

(** [ReadAllKeys]; the nil slice is the empty list. *)
Definition ReadAllKeys (b : BoltDB) (namespace : string)
  : list string * outcome unit :=
  bolt.View b
    (λ tx (result : list string),
       match bolt.Tx_Bucket tx namespace with
       | None => (result, Ok ())
       | Some bucket =>
           let cursor := bolt.Bucket_Cursor tx bucket in
           (ReadAllKeys_loop (Cursor_First cursor) result, Ok ())
       end)
    [].

Definition DeleteNamespace (b : BoltDB) (namespace : string)
  : BoltDB * outcome unit :=
  let '(b', _, r) :=
    bolt.Update b
      (closure0 (λ tx,
         match Tx_DeleteBucket tx namespace with
         | (tx, Some err) =>
             (tx, Err (ErrWrap err ("could not delete namespace<" +:+ namespace +:+ ">")))
         | (tx, None) => (tx, Ok ())
         end)) () in
  (b', r).

(** [strings.Join(elems, sep)] *)
Fixpoint strings_Join (elems : list string) (sep : string) : string :=
  match elems with
  | [] => ""
  | [a] => a
  | a :: rest => a +:+ sep +:+ strings_Join rest sep
  end.

Definition MakeNamespace (ns : list string) : string := strings_Join ns "-".

(** One [Write] per entry of a batch, in order, each in a transaction of
    its own, stopping at the first that fails. *)
Fixpoint Write_each (b : BoltDB) (ws : list (string * string * bytes))
  : BoltDB * outcome unit :=
  match ws with
  | [] => (b, Ok ())
  | (ns, k, v) :: ws =>
      match Write b ns k v with
      | (b, Ok _) => Write_each b ws
      | (b, r) => (b, r)
      end
  end.

(** A codec for objects whose fields are all [null]: it decodes the
    documents [null] and the empty object, and encodes an object as the
    list of its field names. *)
Definition quote : string := String (Ascii.ascii_of_nat 34) "".

Definition null_fields_codec : JSON :=
  {| any := unit;
     json_Unmarshal v :=
       if bytes_eqb v (String.list_byte_of_string "null") then inr None
       else if bytes_eqb v (String.list_byte_of_string "{}") then inr (Some ∅)
       else inl (ErrNew "invalid character");
     json_Marshal model :=
       match model with
       | None => inr (String.list_byte_of_string "null")
       | Some m =>
           inr (String.list_byte_of_string
                  ("{" +:+ strings_Join
                             ((λ kv, quote +:+ kv.1 +:+ quote +:+ ":null")
                                <$> map_to_list m) "," +:+ "}"))
       end |}.

(** ** Package credential: the status-list index pool *)

Module credential.

Definition credentialNamespace : string := "credential".
Definition statusListCredentialNamespace : string := "status-list-credential".
Definition statusListIndexNamespace : string := "status-list-index".
Definition statusListIndexesKey : string := "status-list-indexes".
Definition currentListIndexKey : string := "current-list-index".

(** The minimum length of the revocation bit string, 131,072. *)
Definition bitStringLength : Z := 8 * 1024 * 16.

Record WriteContext : Type := {
  namespace : string;
  key : string;
  value : bytes;
}.

(** A Go [int] is a 64-bit integer: the sum [z] wrapped around. *)
Definition int_wrap (z : Z) : Z := ((z + 2 ^ 63) `mod` 2 ^ 64 - 2 ^ 63)%Z.

(** The JSON codec at the types [[]int] and [StatusListIndex]; the latter
    is the struct whose one field [Index] is an [int]. *)
Class StatusListJSON : Type := {
  Marshal_ints : list Z → error + bytes;
  Unmarshal_ints : bytes → error + list Z;
  Marshal_StatusListIndex : Z → error + bytes;
  Unmarshal_StatusListIndex : bytes → error + Z;
}.

(** What is assumed of the codec: decoding what it encoded gives the
    value back. *)
Class StatusListJSONLaws `{StatusListJSON} : Prop := {
  ints_roundtrip l bs : Marshal_ints l = inr bs → Unmarshal_ints bs = inr l;
  index_roundtrip i bs :
    Marshal_StatusListIndex i = inr bs → Unmarshal_StatusListIndex bs = inr i;
}.

(** The first loop of [randomUniqueNum], [for i <= count], with [n] turns
    left. *)
Fixpoint randomNumbers_loop (i : Z) (n : nat) (randomNumbers : list Z) : list Z :=
  match n with
  | O => randomNumbers
  | S n => randomNumbers_loop (i + 1) n (randomNumbers ++ [i])%list
  end.

(** The swap [randomNumbers[i], randomNumbers[j] = randomNumbers[j],
    randomNumbers[i]]. *)
Definition swap (randomNumbers : list Z) (i j : nat) : list Z :=
  match randomNumbers !! i, randomNumbers !! j with
  | Some x, Some y => <[i := y]> (<[j := x]> randomNumbers)
  | _, _ => randomNumbers
  end.

(** [rand.Shuffle(n, swap)] of [math/rand]: for [i] from [n - 1] down to
    1 it draws [j] in [0..i] and calls [swap(i, j)].  [rnd i] is the
    number drawn at [i]. *)
Fixpoint rand_Shuffle (rnd : nat → nat) (i : nat) (l : list Z) : list Z :=
  match i with
  | O => l
  | S i' => rand_Shuffle rnd i' (swap l i (rnd i `mod` S i))
  end.

Definition randomUniqueNum (rnd : nat → nat) (count : Z) : list Z :=
  let randomNumbers := randomNumbers_loop 1 (Z.to_nat count) [] in
  rand_Shuffle rnd (length randomNumbers - 1) randomNumbers.

(** [createPrefixKey], the unique key of a credential. *)
Definition createPrefixKey (id issuer subject schema : string) : string :=
  strings_Join [id; "is:" +:+ issuer; "su:" +:+ subject; "sc:" +:+ schema] "-".

Section Storage.
Context `{StatusListJSON}.

(** [NewCredentialStorage]: [db] is the reference to the store, [nil]
    being [None]; the result is the store after the call and the error.
    The [Storage] it returns wraps that same store. *)
Definition NewCredentialStorage (rnd : nat → nat) (db : option BoltDB)
  : option BoltDB * outcome unit :=
  match db with
  | None => (None, Err (ErrNew "bolt db reference is nil"))
  | Some db =>
      let randUniqueList := randomUniqueNum rnd bitStringLength in
      match Marshal_ints randUniqueList with
      | inl err => (Some db, Err (ErrWrap err "could not marshal random unique numbers"))
      | inr uniqueNumBytes =>
          match Write db statusListIndexNamespace statusListIndexesKey uniqueNumBytes with
          | (db, Err err) =>
              (Some db, Err (ErrWrap err "problem writing status list indexes to db"))
          | (db, Panic p) => (Some db, Panic p)
          | (db, Ok _) =>
              match Marshal_StatusListIndex 0 with
              | inl err =>
                  (Some db, Err (ErrWrap err "could not marshal status list index bytes"))
              | inr statusListIndexBytes =>
                  match Write db statusListIndexNamespace currentListIndexKey
                          statusListIndexBytes with
                  | (db, Err err) =>
                      (Some db, Err (ErrWrap err "problem writing current list index to db"))
                  | (db, Panic p) => (Some db, Panic p)
                  | (db, Ok _) => (Some db, Ok ())
                  end
              end
          end
      end
  end.

(** Modelled from the spec: [read_tx] of section 4.1, for the method
    [ReadTx] of the store, which is not among the sources.  The allocator
    reads before the transaction has written anything, so it sees the
    committed store, as [Read] does. *)
Definition ReadTx (db : BoltDB) (namespace key : string)
  : option bytes * outcome unit :=
  Read db namespace key.

(** [GetNextStatusListRandomIndex]: [uniqueNums[statusListIndex.Index]]
    panics when the index is not within the slice. *)
Definition GetNextStatusListRandomIndex (cs : BoltDB) : outcome Z :=
  match ReadTx cs statusListIndexNamespace statusListIndexesKey with
  | (_, Err err) => Err (ErrWrap err "reading status list")
  | (_, Panic p) => Panic p
  | (gotUniqueNumBytes, Ok _) =>
      if decide (length (slice gotUniqueNumBytes) = 0%nat)
      then Err (ErrNew "could not get unique numbers from db")
      else
        match Unmarshal_ints (slice gotUniqueNumBytes) with
        | inl err => Err (ErrWrap err "could not unmarshal unique numbers")
        | inr uniqueNums =>
            match ReadTx cs statusListIndexNamespace currentListIndexKey with
            | (_, Err err) => Err (ErrWrap err "could not get list index")
            | (_, Panic p) => Panic p
            | (gotCurrentListIndexBytes, Ok _) =>
                match Unmarshal_StatusListIndex (slice gotCurrentListIndexBytes) with
                | inl err => Err (ErrWrap err "could not unmarshal unique numbers")
                | inr Index =>
                    if (Index <? 0)%Z then Panic index_out_of_range
                    else match uniqueNums !! Z.to_nat Index with
                         | Some n => Ok n
                         | None => Panic index_out_of_range
                         end
                end
            end
        end
  end.

Definition GetIncrementStatusListIndexWriteContext (cs : BoltDB)
  : outcome WriteContext :=
  match ReadTx cs statusListIndexNamespace currentListIndexKey with
  | (_, Err err) => Err (ErrWrap err "could not get list index")
  | (_, Panic p) => Panic p
  | (gotCurrentListIndexBytes, Ok _) =>
      match Unmarshal_StatusListIndex (slice gotCurrentListIndexBytes) with
      | inl err => Err (ErrWrap err "could not unmarshal unique numbers")
      | inr Index =>
          match Marshal_StatusListIndex (int_wrap (Index + 1)) with
          | inl err => Err (ErrWrap err "could not marshal status list index bytes")
          | inr statusListIndexBytes =>
              Ok {| namespace := statusListIndexNamespace;
                    key := currentListIndexKey;
                    value := statusListIndexBytes |}
          end
      end
  end.

(** [Storage.WriteMany]: the three slices it appends to, then the store's
    [WriteMany]. *)
Definition Storage_WriteMany (cs : BoltDB) (writeContexts : list WriteContext)
  : BoltDB * outcome unit :=
  let namespaces := namespace <$> writeContexts in
  let keys := key <$> writeContexts in
  let values := value <$> writeContexts in
  WriteMany cs namespaces keys values.

(** *** Issuance *)

(** Modelled from the spec: the request of [issue] (section 4.5); the
    credential service is not among the sources.  [req_stored] is the
    serialized Stored Credential the service builds and signs for the
    request, given the revocation index embedded in its
    [credentialStatus] if any; [req_status_list] is the key and blob of
    the status-list VC when [get_or_create] (section 4.4) had to create
    one. *)
Record IssueRequest : Type := {
  req_id : string;
  req_issuer : string;
  req_subject : string;
  req_schema : string;
  req_revocable : bool;
  req_stored : option Z → bytes;
  req_status_list : option (string * bytes);
}.

(** Modelled from the spec: the Stored Credential [issue] returns
    (sections 3 and 6), with the revocation index of its
    [credentialStatus], which a credential that is not revocable does not
    have. *)
Record IssuedCredential : Type := {
  ID : string;
  CredentialID : string;
  Issuer : string;
  Subject : string;
  Schema : string;
  statusListIndex : option Z;
}.

(** Modelled from the spec: what [issue] makes of a request and an
    index. *)
Definition issued (req : IssueRequest) (index : option Z) : IssuedCredential :=
  {| ID := createPrefixKey (req_id req) (req_issuer req) (req_subject req)
             (req_schema req);
     CredentialID := req_id req;
     Issuer := req_issuer req;
     Subject := req_subject req;
     Schema := req_schema req;
     statusListIndex := index |}.

(** Modelled from the spec: [issue] of section 4.5; the credential
    service is not among the sources.  A request without subject is
    invalid.  A revocable credential takes the next index, and the new
    credential, the incremented cursor and a new status-list VC if any are
    committed together with [WriteMany]; another credential is stored in
    one write. *)
Definition issue (cs : BoltDB) (req : IssueRequest)
  : BoltDB * outcome IssuedCredential :=
  if decide (req_subject req = "") then (cs, Err (ErrNew "invalid request"))
  else if req_revocable req then
    match GetNextStatusListRandomIndex cs with
    | Err err => (cs, Err err)
    | Panic p => (cs, Panic p)
    | Ok i =>
        match GetIncrementStatusListIndexWriteContext cs with
        | Err err => (cs, Err err)
        | Panic p => (cs, Panic p)
        | Ok increment =>
            let c := issued req (Some i) in
            let stored := {| namespace := credentialNamespace; key := ID c;
                             value := req_stored req (Some i) |} in
            let status_list :=
              match req_status_list req with
              | Some (k, v) => [{| namespace := statusListCredentialNamespace;
                                   key := k; value := v |}]
              | None => []
              end in
            match Storage_WriteMany cs (stored :: increment :: status_list) with
            | (cs, Ok _) => (cs, Ok c)
            | (cs, Err err) => (cs, Err err)
            | (cs, Panic p) => (cs, Panic p)
            end
        end
    end
  else
    let c := issued req None in
    match Write cs credentialNamespace (ID c) (req_stored req None) with
    | (cs, Ok _) => (cs, Ok c)
    | (cs, Err err) => (cs, Err err)
    | (cs, Panic p) => (cs, Panic p)
    end.

(** Modelled from the spec: a sequence of [issue] operations (section 8),
    stopping at the first that does not succeed; it yields the store and
    the credentials issued, in order. *)
Fixpoint issue_all (cs : BoltDB) (reqs : list IssueRequest)
  : BoltDB * outcome (list IssuedCredential) :=
  match reqs with
  | [] => (cs, Ok [])
  | req :: reqs =>
      match issue cs req with
      | (cs, Ok c) =>
          match issue_all cs reqs with
          | (cs, Ok issued) => (cs, Ok (c :: issued))
          | (cs, Err err) => (cs, Err err)
          | (cs, Panic p) => (cs, Panic p)
          end
      | (cs, Err err) => (cs, Err err)
      | (cs, Panic p) => (cs, Panic p)
      end
  end.

(** The store holds the pool [P] and the cursor [k]: both blobs are
    there and decode to them. *)
Definition pool_at (P : list Z) (k : nat) (cs : BoltDB) : Prop :=
  bolt.opened cs = true ∧
  ∃ uniqueNumBytes statusListIndexBytes,
    bolt.Bucket_Get (bolt.root cs) statusListIndexNamespace statusListIndexesKey
    = Some uniqueNumBytes ∧
    Unmarshal_ints uniqueNumBytes = inr P ∧
    bolt.Bucket_Get (bolt.root cs) statusListIndexNamespace currentListIndexKey
    = Some statusListIndexBytes ∧
    Unmarshal_StatusListIndex statusListIndexBytes = inr (Z.of_nat k).

End Storage.

(** *** A codec of fixed width *)

(** A codec for the integers below [2 ^ 24], three bytes each, most
    significant first. *)
Definition byte_of_N (n : N) : Byte.byte := default Byte.x00 (Byte.of_N n).

Definition encode_int (z : Z) : bytes :=
  let n := Z.to_N z in
  [byte_of_N (n / 65536); byte_of_N ((n / 256) `mod` 256); byte_of_N (n `mod` 256)].

Definition decode_int (b2 b1 b0 : Byte.byte) : Z :=
  Z.of_N (Byte.to_N b2 * 65536 + Byte.to_N b1 * 256 + Byte.to_N b0).

Definition encodable (z : Z) : bool := (0 <=? z)%Z && (z <? 2 ^ 24)%Z.

Fixpoint decode_ints (bs : bytes) : error + list Z :=
  match bs with
  | [] => inr []
  | b2 :: b1 :: b0 :: bs =>
      match decode_ints bs with
      | inr l => inr (decode_int b2 b1 b0 :: l)
      | inl err => inl err
      end
  | _ => inl (ErrNew "unexpected end of JSON input")
  end.

Definition fixed_width_codec : StatusListJSON :=
  {| Marshal_ints l :=
       if forallb encodable l then inr (mjoin (encode_int <$> l))
       else inl (ErrNew "unsupported value");
     Unmarshal_ints := decode_ints;
     Marshal_StatusListIndex i :=
       if encodable i then inr (encode_int i) else inl (ErrNew "unsupported value");
     Unmarshal_StatusListIndex bs :=
       match decode_ints bs with
       | inr [i] => inr i
       | inr _ => inl (ErrNew "cannot unmarshal into StatusListIndex")
       | inl err => inl err
       end |}.

(** A request for a revocable credential of one issuer and schema, for
    the runs below; the blob stored for it is the index it was given. *)
Definition revocable_request (id : string) : IssueRequest :=
  {| req_id := id;
     req_issuer := "did:example:issuer";
     req_subject := "did:example:subject";
     req_schema := "schema-1";
     req_revocable := true;
     req_stored i := encode_int (default 0%Z i);
     req_status_list := None |}.

End credential.

(** * Properties *)

(** ** Facts about the bbolt model *)

Section bolt_facts.
Implicit Types (b : BoltDB) (tx : bolt.Tx).

Lemma DB_eta b : bolt.mkDB (bolt.root b) (bolt.opened b) (bolt.sync_err b) = b.
Proof. by destruct b. Qed.

Lemma Bucket_Get_None tx ns k :
  bolt.Bucket_Get tx ns k = None ↔
  tx !! ns = None ∨ ∃ bk, tx !! ns = Some bk ∧ bk !! k = None.
Proof.
  unfold bolt.Bucket_Get. destruct (tx !! ns) as [bk|]; simpl.
  - split; [intros Hk; right; eauto | intros [?|(bk' & ? & ?)]; congruence].
  - split; [by left | done].
Qed.

Lemma alter_delete_absent tx ns bk k :
  tx !! ns = Some bk → bk !! k = None → alter (delete k) ns tx = tx.
Proof.
  intros Hns Hk. apply map_eq. intros i. rewrite lookup_alter.
  case_decide as Hi; [subst i|done].
  rewrite Hns. simpl. by rewrite delete_id.
Qed.

Lemma Bucket_Put_Ok tx ns k v tx' :
  bolt.Bucket_Put tx ns k v = (tx', None) → tx' = alter (insert k v) ns tx.
Proof.
  unfold bolt.Bucket_Put. repeat case_match; congruence.
Qed.

Lemma Bucket_Put_Err tx ns k v tx' e :
  bolt.Bucket_Put tx ns k v = (tx', Some e) → tx' = tx.
Proof.
  unfold bolt.Bucket_Put. repeat case_match; congruence.
Qed.

Lemma CreateBucketIfNotExists_Ok tx ns tx' bucket :
  bolt.Tx_CreateBucketIfNotExists tx ns = (tx', Ok bucket) →
  bucket = ns ∧ is_Some (tx' !! ns) ∧
  (∀ ns' k, bolt.Bucket_Get tx' ns' k = bolt.Bucket_Get tx ns' k).
Proof.
  unfold bolt.Tx_CreateBucketIfNotExists.
  destruct (decide (ns = "")); [done|].
  destruct (tx !! ns) as [bk|] eqn:Hns; intros [= <- <-].
  - by rewrite Hns.
  - rewrite lookup_insert_eq. split_and!; [done|by eexists|].
    intros ns' k. unfold bolt.Bucket_Get. rewrite lookup_insert.
    case_decide; [subst ns'; by rewrite Hns|done].
Qed.

Lemma CreateBucketIfNotExists_not_Ok tx ns tx' r :
  bolt.Tx_CreateBucketIfNotExists tx ns = (tx', r) →
  (∀ bucket, r ≠ Ok bucket) → tx' = tx ∧ is_Err r.
Proof.
  unfold bolt.Tx_CreateBucketIfNotExists.
  repeat case_match; intros [= <- <-] Hr; try done; by destruct (Hr ns).
Qed.

Lemma Bucket_Get_alter_insert tx ns k v ns' k' :
  is_Some (tx !! ns) →
  bolt.Bucket_Get (alter (insert k v) ns tx) ns' k' =
  if decide (ns = ns' ∧ k = k') then Some v else bolt.Bucket_Get tx ns' k'.
Proof.
  intros [bk Hns]. unfold bolt.Bucket_Get. rewrite lookup_alter.
  destruct (decide (ns = ns')) as [<-|Hne].
  - rewrite Hns. simpl. rewrite lookup_insert.
    destruct (decide (k = k')) as [<-|Hk].
    + by rewrite decide_True.
    + rewrite decide_False; [done|by intros [_ ?]].
  - rewrite decide_False; [done|by intros [? _]].
Qed.

Lemma Read_opened b ns k :
  bolt.opened b = true → Read b ns k = (bolt.Bucket_Get (bolt.root b) ns k, Ok ()).
Proof.
  intros Ho. unfold Read, bolt.View, bolt.Begin. rewrite Ho.
  unfold bolt.Tx_Bucket, bolt.Bucket_Get.
  destruct (bolt.root b !! ns) eqn:Hns; simpl; by rewrite ?Hns.
Qed.

End bolt_facts.

(** ** Read, Write and Delete *)

(** C3: on an open database, [Read] of a namespace or of a key that is
    absent returns a nil value and no error. *)
Theorem Read_absent_nil (b : BoltDB) (ns k : string) :
  bolt.opened b = true →
  (bolt.root b !! ns = None ∨
   ∃ bk, bolt.root b !! ns = Some bk ∧ bk !! k = None) →
  Read b ns k = (None, Ok ()).
Proof.
  intros Ho Habs. rewrite Read_opened by done.
  by apply Bucket_Get_None in Habs as ->.
Qed.

Lemma Read_absent_nil_witness :
  Read (bolt.mkDB {[ "credential" := ∅ ]} true None) "credential" "k" = (None, Ok ()) ∧
  Read (bolt.mkDB {[ "credential" := ∅ ]} true None) "schema" "k" = (None, Ok ()).
Proof.
  split; apply Read_absent_nil; try reflexivity.
  - right. exists ∅. split; reflexivity.
  - left. reflexivity.
Defined.

(** The transaction of a [Write] that succeeded. *)
Lemma writeFunc_Ok (tx tx' : bolt.Tx) (ns k : string) (v : bytes) :
  writeFunc ns k v tx = (tx', Ok ()) →
  ∀ ns' k', bolt.Bucket_Get tx' ns' k' =
    if decide (ns = ns' ∧ k = k') then Some v else bolt.Bucket_Get tx ns' k'.
Proof.
  unfold writeFunc.
  destruct (bolt.Tx_CreateBucketIfNotExists tx ns) as [tx1 [bucket|e|p]] eqn:Hc;
    [|by destruct (bolt.Bucket_Put _ _ _ _) as [? [?|]] || done..].
  apply CreateBucketIfNotExists_Ok in Hc as (-> & Hsome & Hget).
  destruct (bolt.Bucket_Put tx1 ns k v) as [tx2 [e|]] eqn:Hp; [done|].
  apply Bucket_Put_Ok in Hp as ->. intros [= <-] ns' k'.
  rewrite Bucket_Get_alter_insert by done. by rewrite Hget.
Qed.

(** A failed write changes no value. *)
Lemma writeFunc_not_Ok (tx tx' : bolt.Tx) (ns k : string) (v : bytes) r :
  writeFunc ns k v tx = (tx', r) → r ≠ Ok () →
  is_Err r ∧ ∀ ns' k', bolt.Bucket_Get tx' ns' k' = bolt.Bucket_Get tx ns' k'.
Proof.
  unfold writeFunc.
  destruct (bolt.Tx_CreateBucketIfNotExists tx ns) as [tx1 [bucket|e|p]] eqn:Hc.
  - apply CreateBucketIfNotExists_Ok in Hc as (-> & Hsome & Hget).
    destruct (bolt.Bucket_Put tx1 ns k v) as [tx2 [e|]] eqn:Hp; [|by intros [= <- <-]].
    apply Bucket_Put_Err in Hp as ->. by intros [= <- <-].
  - apply CreateBucketIfNotExists_not_Ok in Hc as [-> _]; [|done].
    by intros [= <- <-].
  - apply CreateBucketIfNotExists_not_Ok in Hc as [_ []]; done.
Qed.

(** C5: after a [Write] that succeeded, [Read] of the same namespace and
    key returns the value written, whether or not the namespace existed
    before: it exists afterwards. *)
Theorem Write_then_Read (b b' : BoltDB) (ns k : string) (v : bytes) :
  Write b ns k v = (b', Ok ()) →
  Read b' ns k = (Some v, Ok ()) ∧ is_Some (bolt.root b' !! ns).
Proof.
  unfold Write, bolt.Update, bolt.Begin, closure0.
  destruct (bolt.opened b) eqn:Ho; [|done].
  destruct (writeFunc ns k v (bolt.root b)) as [tx' [[]|e|p]] eqn:Hw; [|done..].
  unfold bolt.Commit. destruct (bolt.sync_err b); [done|].
  intros [= <-]. rewrite Read_opened by done. simpl.
  pose proof (writeFunc_Ok _ _ _ _ _ Hw ns k) as Hget.
  rewrite decide_True in Hget by done. split; [by rewrite Hget|].
  unfold bolt.Bucket_Get in Hget. by destruct (tx' !! ns).
Qed.

Lemma Write_then_Read_witness :
  bolt.root (bolt.mkDB ∅ true None) !! "credential" = None ∧
  Read (Write (bolt.mkDB ∅ true None) "credential" "k" []).1 "credential" "k"
  = (Some [], Ok ()).
Proof.
  split; [reflexivity|].
  apply (Write_then_Read (bolt.mkDB ∅ true None)). reflexivity.
Defined.

(** [Delete] of a key of a namespace that does not exist returns an error:
    the claim that it returns none fails on the empty database. *)
Lemma Delete_absent_namespace_is_error :
  let b := bolt.mkDB ∅ true None in
  bolt.root b !! "credential" = None ∧
  Delete b "credential" "k"
  = (b, Err (ErrNew "namespace<credential> does not exist")).
Proof. split; reflexivity. Qed.

(** C4, amended: [Delete] of an absent namespace or key leaves the store
    as it was.  When the namespace is absent it returns an error, which on
    an open database is "namespace<ns> does not exist"; when only the key
    is absent (and the database is open and the commit goes through) it
    returns none. *)
Theorem Delete_absent (b : BoltDB) (ns k : string) :
  (bolt.root b !! ns = None ∨
   ∃ bk, bolt.root b !! ns = Some bk ∧ bk !! k = None) →
  (Delete b ns k).1 = b ∧
  (bolt.root b !! ns = None →
   is_Err (Delete b ns k).2 ∧
   (bolt.opened b = true →
    (Delete b ns k).2 = Err (ErrNew ("namespace<" +:+ ns +:+ "> does not exist")))) ∧
  (is_Some (bolt.root b !! ns) → bolt.opened b = true →
   bolt.sync_err b = None → (Delete b ns k).2 = Ok ()).
Proof.
  intros Habs. unfold Delete, bolt.Update, bolt.Begin, closure0.
  destruct (bolt.opened b) eqn:Ho; simpl.
  2:{ split_and!; [done|by intros _|]. by intros _ ?. }
  unfold bolt.Tx_Bucket. destruct Habs as [Hns|(bk & Hns & Hk)]; rewrite Hns; simpl.
  - split_and!; [done|done|]. by intros [? ?].
  - rewrite (alter_delete_absent _ _ _ _ Hns Hk).
    unfold bolt.Commit. destruct (bolt.sync_err b) eqn:Hs; simpl.
    + split_and!; [done|done|]. by intros _ _ ?.
    + rewrite <-Hs, DB_eta. split_and!; done.
Qed.

Lemma Delete_absent_witness :
  let b := bolt.mkDB {[ "credential" := ∅ ]} true None in
  ((Delete b "credential" "k").1 = b ∧ (Delete b "credential" "k").2 = Ok ()) ∧
  ((Delete b "schema" "k").1 = b ∧
   (Delete b "schema" "k").2 = Err (ErrNew "namespace<schema> does not exist")).
Proof.
  intros b. split.
  - destruct (Delete_absent b "credential" "k") as (H1 & _ & H3).
    + right. exists ∅. split; reflexivity.
    + split; [exact H1|]. apply H3; [by eexists|reflexivity..].
  - destruct (Delete_absent b "schema" "k") as (H1 & H2 & _).
    + left. reflexivity.
    + split; [exact H1|]. apply H2; reflexivity.
Defined.

(** ** Execute *)

(** What a read of the transaction sees after [fn] ran: the last write
    [fn] made to the key, or else what was there before. *)
Lemma call_writes {A} (fn : BusinessLogicFunc A) :
  ∀ (tx tx' : bolt.Tx) (r : outcome A),
    call fn tx = (tx', r) →
    ∀ ns k, bolt.Bucket_Get tx' ns k =
      match last_write (writes_of fn tx) ns k with
      | Some v => Some v
      | None => bolt.Bucket_Get tx ns k
      end.
Proof.
  induction fn as [result err|p|ns0 k0 v0 cont IH]; intros tx tx' r; simpl.
  - by destruct err; intros [= <- <-].
  - by intros [= <- <-].
  - unfold boltTx_Write.
    destruct (writeFunc ns0 k0 v0 tx) as [tx1 r1] eqn:Hw.
    destruct r1 as [[]|e|p].
    + intros Hc ns k. rewrite (IH _ _ _ _ Hc). simpl.
      destruct (last_write _ ns k); [done|].
      rewrite (writeFunc_Ok _ _ _ _ _ Hw). by case_decide.
    + intros Hc ns k. rewrite (IH _ _ _ _ Hc).
      apply writeFunc_not_Ok in Hw as [_ Hget]; [|done].
      by rewrite Hget.
    + apply writeFunc_not_Ok in Hw as [[] _]; done.
Qed.

(** C1: [Execute] is transactional.  When [fn] returns an error,
    [Execute] returns an error and the database is what it was before the
    call.  When [fn] returns without error and the commit succeeds,
    [Execute] returns the result of [fn] and every key reads as the last
    write [fn] made to it (as before the call if [fn] made none). *)
Theorem Execute_transactional {A} (b : BoltDB) (fn : BusinessLogicFunc A)
    (watchKeys : list WatchKey) :
  (∀ e, (call fn (bolt.root b)).2 = Err e →
     is_Err (Execute b fn watchKeys).2 ∧ (Execute b fn watchKeys).1 = b) ∧
  (∀ result, bolt.opened b = true → bolt.sync_err b = None →
     (call fn (bolt.root b)).2 = Ok result →
     (Execute b fn watchKeys).2 = Ok result ∧
     ∀ ns k, Read (Execute b fn watchKeys).1 ns k =
       (match last_write (writes_of fn (bolt.root b)) ns k with
        | Some v => Some v
        | None => (Read b ns k).1
        end, Ok ())).
Proof.
  unfold Execute, bolt.Begin. split.
  - intros e He. destruct (bolt.opened b); [|done].
    destruct (call fn (bolt.root b)) as [t r]. simpl in He. by subst r.
  - intros result Ho Hs Hr. rewrite Ho.
    destruct (call fn (bolt.root b)) as [t r] eqn:Hc. simpl in Hr. subst r.
    unfold bolt.Commit. rewrite Hs. simpl. split; [done|].
    intros ns k. rewrite !Read_opened by done. simpl.
    by rewrite (call_writes _ _ _ _ Hc).
Qed.

(** A panic of [fn] rolls the transaction back as well. *)
Lemma Execute_panic_rolls_back {A} (b : BoltDB) (fn : BusinessLogicFunc A)
    (watchKeys : list WatchKey) (p : string) :
  bolt.opened b = true →
  (call fn (bolt.root b)).2 = Panic p →
  Execute b fn watchKeys = (b, Panic p).
Proof.
  intros Ho Hp. unfold Execute, bolt.Begin. rewrite Ho.
  destruct (call fn (bolt.root b)) as [t r]. simpl in Hp. by subst r.
Qed.

Lemma Execute_transactional_witness :
  let b := bolt.mkDB {[ "credential" := {[ "k" := [] ]} ]} true None in
  let failing := BLWrite "credential" "k2" [] (λ _, BLReturn () (Some (ErrNew "no"))) in
  let passing := BLWrite "credential" "k2" [] (λ _, BLReturn () None) in
  (is_Err (Execute b failing []).2 ∧ (Execute b failing []).1 = b) ∧
  ((Execute b passing []).2 = Ok () ∧
   Read (Execute b passing []).1 "credential" "k2" = (Some [], Ok ())).
Proof.
  intros b failing passing. split.
  - apply (proj1 (Execute_transactional b failing []) (ErrNew "no")). reflexivity.
  - destruct (proj2 (Execute_transactional b passing []) ()) as [H1 H2];
      [reflexivity..|].
    split; [exact H1|]. apply (H2 "credential" "k2").
Defined.

(** ** WriteMany *)

Lemma batch_lookup namespaces keys values i ns k v :
  batch namespaces keys values !! i = Some (ns, k, v) ↔
  namespaces !! i = Some ns ∧ keys !! i = Some k ∧ values !! i = Some v.
Proof.
  unfold batch. rewrite lookup_zip_with_Some. split.
  - intros ([ns' k'] & v' & [= -> -> ->] & Hz & Hv).
    apply lookup_zip_with_Some in Hz as (? & ? & [= -> ->] & ? & ?). done.
  - intros (Hn & Hk & Hv). exists (ns, k), v. split_and!; [done| |done].
    apply lookup_zip_with_Some. by exists ns, k.
Qed.

Lemma last_write_None ws ns k :
  (∀ j v, ws !! j ≠ Some (ns, k, v)) → last_write ws ns k = None.
Proof.
  induction ws as [|[[ns0 k0] v0] ws IH]; intros Hno; [done|]. simpl.
  rewrite IH; [|intros j v; apply (Hno (S j) v)].
  case_decide as Heq; [|done]. destruct Heq as [-> ->]. by destruct (Hno 0 v0).
Qed.

(** The last entry of a trace for a key decides [last_write]. *)
Lemma last_write_lookup ws i ns k v :
  ws !! i = Some (ns, k, v) →
  (∀ j v', (i < j)%nat → ws !! j ≠ Some (ns, k, v')) →
  last_write ws ns k = Some v.
Proof.
  revert i. induction ws as [|[[ns0 k0] v0] ws IH]; intros i Hi Hlast; [done|].
  destruct i as [|i]; simpl in *.
  - injection Hi as -> -> ->.
    rewrite last_write_None; [by rewrite decide_True|].
    intros j v'. apply (Hlast (S j) v'). lia.
  - rewrite (IH i Hi); [done|].
    intros j v' Hj. apply (Hlast (S j) v'). lia.
Qed.

(** One turn of the loop of [WriteMany] is the body of [writeFunc]. *)
Lemma WriteMany_loop_cons ns rest i keys values k v (tx : bolt.Tx) :
  keys !! i = Some k → values !! i = Some v →
  WriteMany_loop (ns :: rest) i keys values tx =
  match writeFunc ns k v tx with
  | (tx1, Ok _) => WriteMany_loop rest (S i) keys values tx1
  | (tx1, Err e) => (tx1, Err e)
  | (tx1, Panic p) => (tx1, Panic p)
  end.
Proof.
  intros Hk Hv. simpl. unfold writeFunc.
  destruct (bolt.Tx_CreateBucketIfNotExists tx ns) as [tx1 [bucket|e|p]]; [|done..].
  rewrite Hk, Hv. by destruct (bolt.Bucket_Put tx1 bucket k v) as [tx2 [e|]].
Qed.

(** With enough keys and values the loop ends without panic, and after a
    run without error every key holds the last value the rest of the batch
    gives it. *)
Lemma WriteMany_loop_spec rest :
  ∀ i keys values (tx tx' : bolt.Tx) r,
    (i + length rest ≤ length keys)%nat →
    (i + length rest ≤ length values)%nat →
    WriteMany_loop rest i keys values tx = (tx', r) →
    is_Err r ∨
    (r = Ok () ∧
     ∀ ns k, bolt.Bucket_Get tx' ns k =
       match last_write (batch rest (drop i keys) (drop i values)) ns k with
       | Some v => Some v
       | None => bolt.Bucket_Get tx ns k
       end).
Proof.
  induction rest as [|ns0 rest IH]; intros i keys values tx tx' r Hlk Hlv.
  - simpl. intros [= <- <-]. by right.
  - simpl in Hlk, Hlv.
    destruct (lookup_lt_is_Some_2 keys i) as [k0 Hk]; [lia|].
    destruct (lookup_lt_is_Some_2 values i) as [v0 Hv]; [lia|].
    rewrite (WriteMany_loop_cons _ _ _ _ _ _ _ _ Hk Hv).
    rewrite (drop_S _ _ _ Hk), (drop_S _ _ _ Hv).
    destruct (writeFunc ns0 k0 v0 tx) as [tx1 r1] eqn:Hw.
    destruct r1 as [[]|e|p].
    + intros Hl. apply IH in Hl; [|lia..].
      destruct Hl as [?|[-> Hget]]; [by left|].
      right. split; [done|]. intros ns k. rewrite Hget. simpl.
      destruct (last_write _ ns k); [done|].
      rewrite (writeFunc_Ok _ _ _ _ _ Hw). by case_decide.
    + intros [= <- <-]. by left.
    + apply writeFunc_not_Ok in Hw as [[] _]; done.
Qed.

(** [WriteMany] on slices of equal length: either no error, and every key
    reads as its last entry in the batch says, or an error, and the
    database is what it was. *)
Lemma WriteMany_atomic_last_write (b : BoltDB) namespaces keys values :
  length namespaces = length keys → length namespaces = length values →
  ((WriteMany b namespaces keys values).2 = Ok () ∧
   ∀ ns k, Read (WriteMany b namespaces keys values).1 ns k =
     (match last_write (batch namespaces keys values) ns k with
      | Some v => Some v
      | None => (Read b ns k).1
      end, Ok ())) ∨
  (is_Err (WriteMany b namespaces keys values).2 ∧
   (WriteMany b namespaces keys values).1 = b).
Proof.
  intros Hlk Hlv. unfold WriteMany.
  rewrite (bool_decide_eq_false_2 (length namespaces ≠ length keys)) by tauto.
  simpl. unfold bolt.Update, bolt.Begin, closure0.
  destruct (bolt.opened b) eqn:Ho; [|by right].
  destruct (WriteMany_loop namespaces 0 keys values (bolt.root b)) as [tx' r] eqn:Hl.
  apply WriteMany_loop_spec in Hl; [|simpl; lia..].
  destruct Hl as [He|[-> Hget]].
  - right. by destruct r.
  - unfold bolt.Commit. destruct (bolt.sync_err b) eqn:Hs; [by right|].
    left. simpl. split; [done|]. intros ns k.
    rewrite !Read_opened by done. simpl. by rewrite Hget, !drop_0.
Qed.

(** A batch that names a key twice leaves the later value there: the
    claim that every [keys[i]] maps to [values[i]] fails at [i = 0]. *)
Lemma WriteMany_duplicate_key_keeps_last :
  let b := bolt.mkDB ∅ true None in
  let namespaces := ["credential"; "credential"] in
  let keys := ["k"; "k"] in
  let values := [[Byte.x00]; [Byte.x01]] in
  (WriteMany b namespaces keys values).2 = Ok () ∧
  values !! 0 = Some [Byte.x00] ∧
  Read (WriteMany b namespaces keys values).1 "credential" "k"
  = (Some [Byte.x01], Ok ()).
Proof. split_and!; reflexivity. Qed.

(** C2, amended: [WriteMany] is an atomic batch on slices of equal length.
    Either it returns nil, and then every key [keys[i]] of namespace
    [namespaces[i]] maps to [values[i]] provided no later entry of the
    batch names the same namespace and key; or it returns an error and
    the database is what it was. *)
Theorem WriteMany_atomic (b : BoltDB) namespaces keys values :
  length namespaces = length keys → length namespaces = length values →
  ((WriteMany b namespaces keys values).2 = Ok () ∧
   ∀ i ns k v,
     namespaces !! i = Some ns → keys !! i = Some k → values !! i = Some v →
     (∀ j, (i < j)%nat → ¬ (namespaces !! j = Some ns ∧ keys !! j = Some k)) →
     Read (WriteMany b namespaces keys values).1 ns k = (Some v, Ok ())) ∨
  (is_Err (WriteMany b namespaces keys values).2 ∧
   (WriteMany b namespaces keys values).1 = b).
Proof.
  intros Hlk Hlv.
  destruct (WriteMany_atomic_last_write b namespaces keys values Hlk Hlv)
    as [[Hok Hread]|?]; [left|by right].
  split; [done|]. intros i ns k v Hn Hk Hv Hlast.
  rewrite Hread. rewrite (last_write_lookup _ i ns k v); [done| |].
  - by apply batch_lookup.
  - intros j v' Hj Hb. apply batch_lookup in Hb as (? & ? & _).
    by apply (Hlast j).
Qed.

Lemma WriteMany_atomic_witness :
  let b := bolt.mkDB ∅ true None in
  Read (WriteMany b ["credential"; "schema"] ["k"; "k"] [[Byte.x00]; []]).1
    "credential" "k" = (Some [Byte.x00], Ok ()).
Proof.
  intros b.
  destruct (WriteMany_atomic b ["credential"; "schema"] ["k"; "k"]
              [[Byte.x00]; []] eq_refl eq_refl) as [[_ H]|[H _]].
  - apply (H 0); [reflexivity..|].
    intros [|[|j]] Hj [Hn Hk]; [lia|discriminate|discriminate].
  - destruct H.
Defined.

(** C9: the length check of [WriteMany] rejects a call only when the
    number of namespaces differs from the number of keys and from the
    number of values.  A call with as many keys as namespaces and fewer
    values passes the check, and indexing [values] then panics. *)
Theorem WriteMany_length_guard :
  (∀ (b : BoltDB) namespaces keys values,
     length namespaces ≠ length keys → length namespaces ≠ length values →
     WriteMany b namespaces keys values = (b, Err errNotEqualLength)) ∧
  (∀ (b : BoltDB) namespaces keys values,
     length namespaces = length keys ∨ length namespaces = length values →
     WriteMany b namespaces keys values =
     let '(b', _, r) :=
       bolt.Update b (closure0 (WriteMany_loop namespaces 0 keys values)) () in
     (b', r)) ∧
  (∃ namespaces keys values,
     length namespaces = length keys ∧
     (length values < length namespaces)%nat ∧
     ∀ b : BoltDB, bolt.opened b = true →
       WriteMany b namespaces keys values = (b, Panic index_out_of_range)).
Proof.
  split_and!.
  - intros b namespaces keys values Hk Hv. unfold WriteMany.
    by rewrite !bool_decide_eq_true_2.
  - intros b namespaces keys values Hl. unfold WriteMany.
    destruct Hl as [Hl|Hl].
    + by rewrite (bool_decide_eq_false_2 (_ ≠ length keys)) by tauto.
    + rewrite (bool_decide_eq_false_2 (_ ≠ length values)) by tauto.
      by rewrite andb_false_r.
  - exists ["credential"], ["k"], []. split_and!; [done|simpl; lia|].
    intros b Ho. unfold WriteMany. simpl.
    unfold bolt.Update, bolt.Begin, closure0. rewrite Ho. simpl.
    unfold bolt.Tx_CreateBucketIfNotExists. simpl.
    by destruct (bolt.root b !! "credential").
Qed.

Lemma WriteMany_length_guard_witness :
  WriteMany (bolt.mkDB ∅ true None) ["credential"] [] []
  = (bolt.mkDB ∅ true None, Err errNotEqualLength) ∧
  WriteMany (bolt.mkDB ∅ true None) ["credential"] ["k"] []
  = (bolt.mkDB ∅ true None, Panic index_out_of_range).
Proof.
  destruct WriteMany_length_guard as (H1 & H2 & _). split.
  - apply H1; simpl; lia.
  - rewrite H2; [reflexivity|]. left. reflexivity.
Defined.

(** ** The update path *)

Lemma updateTx_absent (tx : bolt.Tx) ns k updater :
  bolt.Bucket_Get tx ns k = None →
  ∃ e, updateTx tx ns k updater = (tx, Err e).
Proof.
  intros Hget. unfold updateTx, bolt.Tx_Bucket.
  destruct (tx !! ns) eqn:Hns; [|by eexists].
  rewrite Hget. by eexists.
Qed.

Lemma updateTx_Ok (tx tx' : bolt.Tx) ns k updater data :
  updateTx tx ns k updater = (tx', Ok data) →
  ∃ v, bolt.Bucket_Get tx ns k = Some v ∧
       Updater_Validate updater v = Ok () ∧
       Updater_Update updater v = Ok data ∧
       is_Some (tx !! ns) ∧
       tx' = alter (insert k data) ns tx.
Proof.
  unfold updateTx, bolt.Tx_Bucket.
  destruct (tx !! ns) eqn:Hns; [|done].
  destruct (bolt.Bucket_Get tx ns k) as [v|]; [|done].
  destruct (Updater_Validate updater v) as [[]|e|p] eqn:Hval; [|done..].
  destruct (Updater_Update updater v) as [d|e|p] eqn:Hupd; [|done..].
  destruct (bolt.Bucket_Put tx ns k d) as [tx2 [e|]] eqn:Hp; [done|].
  apply Bucket_Put_Ok in Hp as ->. intros [= <- <-].
  exists v. split_and!; by eauto.
Qed.

Lemma updateTx_not_Ok (tx tx' : bolt.Tx) ns k updater r :
  updateTx tx ns k updater = (tx', r) → (∀ data, r ≠ Ok data) → tx' = tx.
Proof.
  unfold updateTx. intros Hu Hr.
  repeat case_match; simplify_eq; try done.
  - by eapply Bucket_Put_Err.
  - by destruct (Hr a0).
Qed.

(** C10: the update path does not create storage.  When the namespace
    does not exist or holds no value for the key, [Update] and
    [UpdateValueAndOperation] return an error and leave the database as
    it was. *)
Theorem Update_absent_is_error `{JSON} (b : BoltDB) (ns k : string)
    (values : gmap string any) (updater : Updater) (opNs opKey : string)
    (opUpdater : ResponseSettingUpdater) :
  (bolt.root b !! ns = None ∨
   ∃ bk, bolt.root b !! ns = Some bk ∧ bk !! k = None) →
  (is_Err (Update b ns k values).2 ∧ (Update b ns k values).1.1 = b) ∧
  (is_Err (UpdateValueAndOperation b ns k updater opNs opKey opUpdater).2 ∧
   (UpdateValueAndOperation b ns k updater opNs opKey opUpdater).1.1 = b).
Proof.
  intros Habs%Bucket_Get_None.
  unfold Update, UpdateValueAndOperation, bolt.Update, bolt.Begin, updateTxFn.
  destruct (bolt.opened b); [|done].
  split.
  - by destruct (updateTx_absent _ _ _ (UpdaterWithMap_Updater (NewUpdater values)) Habs)
      as [e ->].
  - by destruct (updateTx_absent _ _ _ updater Habs) as [e ->].
Qed.

Lemma Update_absent_is_error_witness :
  let b := bolt.mkDB {[ "credential" := ∅ ]} true None in
  let updater := {| Updater_Update := λ v, Ok v; Updater_Validate := λ _, Ok () |} in
  let opUpdater := {| SetUpdatedResponse := λ _, updater |} in
  (is_Err (@Update empty_object_codec b "credential" "k" ∅).2 ∧
   (@Update empty_object_codec b "credential" "k" ∅).1.1 = b) ∧
  (is_Err (UpdateValueAndOperation b "schema" "k" updater "op" "k" opUpdater).2 ∧
   (UpdateValueAndOperation b "schema" "k" updater "op" "k" opUpdater).1.1 = b).
Proof.
  intros b updater opUpdater. split.
  - apply (@Update_absent_is_error empty_object_codec b "credential" "k" ∅
             updater "op" "k" opUpdater).
    right. exists ∅. split; reflexivity.
  - apply (@Update_absent_is_error empty_object_codec b "schema" "k" ∅
             updater "op" "k" opUpdater).
    left. reflexivity.
Defined.

(** When both targets are the same key, the blob left there is the one
    [opUpdater] made, not the one [updater] made: the claim that on
    success [(ns, key)] holds the updater's blob fails. *)
Lemma UpdateValueAndOperation_same_target :
  let b := bolt.mkDB {[ "credential" := {[ "k" := [Byte.x00] ]} ]} true None in
  let updater :=
    {| Updater_Update := λ _, Ok [Byte.x01]; Updater_Validate := λ _, Ok () |} in
  let opUpdater :=
    {| SetUpdatedResponse := λ response,
         {| Updater_Update := λ _, Ok (response ++ [Byte.x02])%list;
            Updater_Validate := λ _, Ok () |} |} in
  let r := UpdateValueAndOperation b "credential" "k" updater "credential" "k" opUpdater in
  r.2 = Ok () ∧
  r.1.2 = (Some [Byte.x01], Some [Byte.x01; Byte.x02]) ∧
  Read r.1.1 "credential" "k" = (Some [Byte.x01; Byte.x02], Ok ()).
Proof. split_and!; reflexivity. Qed.

(** C7, amended: [UpdateValueAndOperation] runs both steps in one
    transaction.  On success the blob [updater] makes from the one at
    [(ns, key)] is returned as [first], the blob [opUpdater], given
    [first], makes from the one at [(opNs, opKey)] is returned as [op] and
    is what [(opNs, opKey)] holds afterwards, and [(ns, key)] holds
    [first] unless it is the same key as [(opNs, opKey)].  If either step
    returns an error, an error is returned and the database is what it
    was. *)
Theorem UpdateValueAndOperation_atomic (b : BoltDB) (ns key : string)
    (updater : Updater) (opNs opKey : string) (opUpdater : ResponseSettingUpdater) :
  let res := UpdateValueAndOperation b ns key updater opNs opKey opUpdater in
  (res.2 = Ok () →
   ∃ v first v_op op,
     (Read b ns key).1 = Some v ∧
     Updater_Update updater v = Ok first ∧
     bolt.Bucket_Get (alter (insert key first) ns (bolt.root b)) opNs opKey = Some v_op ∧
     Updater_Update (SetUpdatedResponse opUpdater first) v_op = Ok op ∧
     res.1.2 = (Some first, Some op) ∧
     Read res.1.1 opNs opKey = (Some op, Ok ()) ∧
     ((ns, key) ≠ (opNs, opKey) → Read res.1.1 ns key = (Some first, Ok ()))) ∧
  (∀ e, (updateTx (bolt.root b) ns key updater).2 = Err e →
     is_Err res.2 ∧ res.1.1 = b) ∧
  (∀ first e,
     (updateTx (bolt.root b) ns key updater).2 = Ok first →
     (updateTx (updateTx (bolt.root b) ns key updater).1 opNs opKey
        (SetUpdatedResponse opUpdater first)).2 = Err e →
     is_Err res.2 ∧ res.1.1 = b) ∧
  (is_Err res.2 → res.1.1 = b).
Proof.
  intros res. subst res.
  unfold UpdateValueAndOperation, bolt.Update, bolt.Begin, updateTxFn.
  destruct (bolt.opened b) eqn:Ho; [|by split_and!].
  destruct (updateTx (bolt.root b) ns key updater) as [tx1 [first|e1|p1]] eqn:H1;
    simpl; [|split_and!; by intros; simplify_eq/=..].
  destruct (updateTx tx1 opNs opKey (SetUpdatedResponse opUpdater first))
    as [tx2 [op|e2|p2]] eqn:H2; simpl;
    [|split_and!; intros; simplify_eq/=; rewrite ?H2 in *; by simplify_eq/=..].
  unfold bolt.Commit. destruct (bolt.sync_err b) eqn:Hs; simpl;
    [split_and!; intros; simplify_eq/=; rewrite ?H2 in *; by simplify_eq/=|].
  split_and!;
    [|intros; simplify_eq/=; rewrite ?H2 in *; by simplify_eq/=..].
  intros _.
  apply updateTx_Ok in H1 as (v & Hv & _ & Hupd & Hsome & ->).
  apply updateTx_Ok in H2 as (v_op & Hvop & _ & Hupd_op & Hsome_op & ->).
  exists v, first, v_op, op. rewrite !Read_opened by done. simpl.
  split_and!; try done.
  - rewrite Bucket_Get_alter_insert by done. by rewrite decide_True.
  - intros Hne. rewrite !Bucket_Get_alter_insert by done.
    rewrite decide_False; [|intros [-> ->]; done].
    by rewrite decide_True.
Qed.

Lemma UpdateValueAndOperation_atomic_witness :
  let b := bolt.mkDB {[ "credential" := {[ "k" := [Byte.x00] ]};
                         "operation" := {[ "op" := [] ]} ]} true None in
  let updater :=
    {| Updater_Update := λ _, Ok [Byte.x01]; Updater_Validate := λ _, Ok () |} in
  let opUpdater :=
    {| SetUpdatedResponse := λ response,
         {| Updater_Update := λ _, Ok (response ++ [Byte.x02])%list;
            Updater_Validate := λ _, Ok () |} |} in
  (∃ first op,
     (UpdateValueAndOperation b "credential" "k" updater "operation" "op" opUpdater).1.2
       = (Some first, Some op) ∧
     Read (UpdateValueAndOperation b "credential" "k" updater "operation" "op"
             opUpdater).1.1 "credential" "k" = (Some first, Ok ())) ∧
  (UpdateValueAndOperation b "credential" "k" updater "operation" "missing"
     opUpdater).1.1 = b.
Proof.
  intros b updater opUpdater. split.
  - destruct (UpdateValueAndOperation_atomic b "credential" "k" updater
                "operation" "op" opUpdater) as (Hok & _).
    destruct Hok as (v & first & v_op & op & _ & _ & _ & _ & Hret & _ & Hfirst);
      [reflexivity|].
    exists first, op. split; [exact Hret|]. apply Hfirst. discriminate.
  - destruct (UpdateValueAndOperation_atomic b "credential" "k" updater
                "operation" "missing" opUpdater) as (_ & _ & Hstep2 & _).
    apply (Hstep2 [Byte.x01] (ErrNew "key not found missing")); reflexivity.
Defined.

(** ** ReadPrefix *)

(** *** The byte order of keys and prefixes *)

Lemma String_le_compare (s1 s2 : string) :
  String.le s1 s2 ↔ String.compare s1 s2 ≠ Gt.
Proof.
  unfold String.le, String.leb. by destruct (String.compare s1 s2).
Qed.

Lemma Ascii_compare_refl (a : Ascii.ascii) : Ascii.compare a a = Eq.
Proof. apply N.compare_refl. Qed.

Lemma Ascii_compare_Lt_trans (a c d : Ascii.ascii) :
  Ascii.compare a c = Lt → Ascii.compare c d ≠ Gt → a ≠ d.
Proof.
  unfold Ascii.compare. intros Hac Hcd ->.
  rewrite N.compare_lt_iff in Hac. rewrite N.compare_le_iff in Hcd. lia.
Qed.

(** A key that has the prefix is not below the prefix. *)
Lemma prefix_le (p k : string) : String.prefix p k = true → String.le p k.
Proof.
  rewrite String_le_compare. revert k.
  induction p as [|a p IH]; intros [|c k]; simpl; try done.
  destruct (Ascii.ascii_dec a c) as [<-|]; [|done].
  rewrite Ascii_compare_refl. apply IH.
Qed.

(** Once the cursor is past the keys that have the prefix, no later key
    has it. *)
Lemma not_prefix_above (p k k' : string) :
  String.le p k → String.prefix p k = false → String.le k k' →
  String.prefix p k' = false.
Proof.
  rewrite !String_le_compare. revert k k'.
  induction p as [|a p IH]; intros [|c k] [|d k']; simpl; try done.
  destruct (Ascii.ascii_dec a c) as [<-|Hac].
  - rewrite Ascii_compare_refl. intros Hpk Hpre.
    destruct (Ascii.compare a d) eqn:Had; try done.
    + apply Ascii.compare_eq_iff in Had as <-.
      destruct (Ascii.ascii_dec a a); [|done]. by apply IH.
    + intros _. destruct (Ascii.ascii_dec a d) as [<-|]; [|done].
      by rewrite Ascii_compare_refl in Had.
  - destruct (Ascii.compare a c) eqn:Hcmp; try done.
    { by apply Ascii.compare_eq_iff in Hcmp. }
    intros _ _ Hkk'.
    destruct (Ascii.ascii_dec a d) as [<-|]; [|done].
    exfalso. apply (Ascii_compare_Lt_trans a c a Hcmp); [|done].
    by destruct (Ascii.compare c a).
Qed.

(** *** The scan *)

Lemma filter_none {A} (P : A → Prop) `{∀ x, Decision (P x)} (l : list A) :
  Forall (λ x, ¬ P x) l → filter P l = [].
Proof.
  induction 1 as [|x l Hx _ IH]; [done|]. by rewrite filter_cons_False.
Qed.

(** From a key that is not below the prefix on, the loop stores the pairs
    whose key has the prefix. *)
Lemma ReadPrefix_loop_filter (p : string) (c : list (string * bytes)) :
  StronglySorted bolt.key_le c →
  Forall (λ kv, String.le p kv.1) c →
  ∀ result, ReadPrefix_loop c p result = foldl assign result (filter (has_prefix p) c).
Proof.
  induction 1 as [|[k v] c Hsorted IH Hall]; intros Hge result; [done|].
  apply Forall_cons in Hge as [Hk Hge]. simpl in Hk. simpl.
  destruct (String.prefix p k) eqn:Hpre.
  - rewrite filter_cons_True by done. simpl. by apply IH.
  - rewrite filter_cons_False by (simpl; congruence).
    replace (filter (has_prefix p) c) with (@nil (string * bytes)); [done|].
    symmetry. apply filter_none. eapply Forall_impl; [exact Hall|].
    intros [k' v'] Hkk'. simpl.
    by rewrite (not_prefix_above p k k').
Qed.

(** [Seek] followed by the loop visits exactly the pairs whose key has
    the prefix. *)
Lemma Seek_loop_filter (p : string) (c : list (string * bytes)) :
  StronglySorted bolt.key_le c →
  ∀ result, ReadPrefix_loop (bolt.Cursor_Seek c p) p result
            = foldl assign result (filter (has_prefix p) c).
Proof.
  induction 1 as [|[k v] c Hsorted IH Hall]; intros result; [done|]. simpl.
  destruct (decide (String.le p k)) as [Hle|Hlt].
  - apply ReadPrefix_loop_filter; [by constructor|].
    constructor; [done|]. eapply Forall_impl; [exact Hall|].
    intros [k' v'] Hkk'. simpl. by transitivity k.
  - rewrite filter_cons_False; [apply IH|]. simpl.
    intros Hpre. by apply Hlt, prefix_le.
Qed.

Lemma foldl_assign_lookup (Pk : string → Prop) `{∀ k, Decision (Pk k)}
    (l : list (string * bytes)) :
  NoDup l.*1 →
  ∀ (result : gmap string bytes) k v,
    foldl assign result (filter (λ kv, Pk kv.1) l) !! k = Some v ↔
    ((k, v) ∈ l ∧ Pk k) ∨ ((k ∉ l.*1 ∨ ¬ Pk k) ∧ result !! k = Some v).
Proof.
  induction l as [|[k0 v0] l IH]; intros Hnd result k v.
  - simpl. split; [intros; right; split; [left; apply not_elem_of_nil|done]|].
    intros [[Hin _]|[_ ?]]; [by apply elem_of_nil in Hin|done].
  - rewrite fmap_cons in Hnd. apply NoDup_cons in Hnd as [Hk0 Hnd]. simpl in Hk0.
    assert (∀ v', (k0, v') ∉ l) as Hk0'.
    { intros v' Hin. apply Hk0. apply list_elem_of_fmap. by exists (k0, v'). }
    rewrite fmap_cons, !elem_of_cons. simpl.
    destruct (decide (Pk k0)) as [HP|HP].
    + rewrite filter_cons_True by done. simpl. rewrite (IH Hnd).
      rewrite lookup_insert. case_decide as Hkk.
      * subst k0. split.
        -- intros [[Hin _]|[_ [= ->]]]; [by apply Hk0' in Hin|]. left. by split; [left|].
        -- intros [[[[= ->]|Hin] _]|[[Hno|Hno] _]].
           ++ right. split; [by left|done].
           ++ by apply Hk0' in Hin.
           ++ destruct Hno. by left.
           ++ done.
      * split.
        -- intros [[Hin HPk]|[Hor Hres]]; [left; by split; [right|]|].
           right. split; [|done]. destruct Hor as [Hno|Hno]; [left|by right].
           intros [?|?]; [congruence|done].
        -- intros [[[[= -> _]|Hin] HPk]|[Hor Hres]]; [done|left; by split|].
           right. split; [|done]. destruct Hor as [Hno|Hno]; [left|by right].
           intros Hin. apply Hno. by right.
    + rewrite filter_cons_False by done. rewrite (IH Hnd). split.
      * intros [[Hin HPk]|[Hor Hres]]; [left; by split; [right|]|].
        right. split; [|done]. destruct Hor as [Hno|Hno]; [|by right].
        destruct (decide (k = k0)) as [->|]; [by right|].
        left. intros [?|?]; done.
      * intros [[[[= -> _]|Hin] HPk]|[Hor Hres]]; [done|left; by split|].
        right. split; [|done]. destruct Hor as [Hno|Hno]; [left|by right].
        intros Hin. apply Hno. by right.
Qed.

Lemma Bucket_Cursor_sorted (tx : bolt.Tx) ns :
  StronglySorted bolt.key_le (bolt.Bucket_Cursor tx ns).
Proof.
  unfold bolt.Bucket_Cursor. destruct (tx !! ns); [|constructor].
  apply StronglySorted_merge_sort; apply _.
Qed.

Lemma Bucket_Cursor_elem_of (tx : bolt.Tx) ns k v :
  (k, v) ∈ bolt.Bucket_Cursor tx ns ↔ bolt.Bucket_Get tx ns k = Some v.
Proof.
  unfold bolt.Bucket_Cursor, bolt.Bucket_Get. destruct (tx !! ns) as [bk|]; simpl.
  - rewrite merge_sort_Permutation. apply elem_of_map_to_list.
  - split; [by intros ?%elem_of_nil|done].
Qed.

Lemma Bucket_Cursor_NoDup (tx : bolt.Tx) ns :
  NoDup (bolt.Bucket_Cursor tx ns).*1.
Proof.
  unfold bolt.Bucket_Cursor. destruct (tx !! ns) as [bk|]; [|constructor].
  rewrite merge_sort_Permutation. apply NoDup_fst_map_to_list.
Qed.

(** C6: on an open database, [ReadPrefix] returns no error and a map that
    holds exactly the keys of the namespace that start with the prefix,
    each with its stored value; it is empty when the namespace is
    absent. *)
Theorem ReadPrefix_exact (b : BoltDB) (ns p : string) :
  bolt.opened b = true →
  (ReadPrefix b ns p).2 = Ok () ∧
  (∀ k v, (ReadPrefix b ns p).1 !! k = Some v ↔
          (Read b ns k).1 = Some v ∧ String.prefix p k = true) ∧
  (bolt.root b !! ns = None → (ReadPrefix b ns p).1 = ∅).
Proof.
  intros Ho. unfold ReadPrefix, bolt.View, bolt.Begin. rewrite Ho.
  unfold bolt.Tx_Bucket.
  destruct (bolt.root b !! ns) as [bk|] eqn:Hns; simpl.
  - split_and!; [done| |done]. intros k v.
    rewrite Seek_loop_filter by apply Bucket_Cursor_sorted.
    pose proof (foldl_assign_lookup (λ k, String.prefix p k = true) _
                  (Bucket_Cursor_NoDup (bolt.root b) ns) ∅ k v) as Hl.
    simpl in Hl. rewrite Hl.
    rewrite lookup_empty, Bucket_Cursor_elem_of, Read_opened by done. simpl.
    split; [intros [?|[_ ?]]; done|by left].
  - split_and!; [done| |done]. intros k v.
    rewrite lookup_empty, Read_opened by done. simpl.
    unfold bolt.Bucket_Get. rewrite Hns. simpl. split; [done|by intros [? _]].
Qed.

Lemma ReadPrefix_exact_witness :
  let b := bolt.mkDB {[ "credential" :=
             {[ "a-is:x" := [Byte.x00]; "ab-is:y" := [Byte.x01];
                "b-is:z" := [Byte.x02] ]} ]} true None in
  (ReadPrefix b "credential" "a").1 !! "ab-is:y" = Some [Byte.x01] ∧
  (ReadPrefix b "credential" "a").1 !! "b-is:z" = None ∧
  (ReadPrefix b "schema" "a").1 = ∅.
Proof.
  intros b.
  destruct (ReadPrefix_exact b "credential" "a" eq_refl) as (_ & Hiff & _).
  destruct (ReadPrefix_exact b "schema" "a" eq_refl) as (_ & _ & Hempty).
  split_and!.
  - apply Hiff. split; reflexivity.
  - apply eq_None_not_Some. intros [v Hv]. apply Hiff in Hv as [_ Hpre].
    discriminate Hpre.
  - apply Hempty. reflexivity.
Defined.

(** * Further properties of the substrate *)

(** ** Transactions *)

Lemma bolt_Update_atomic {S} (db : bolt.DB) (fn : bolt.Tx → S → bolt.Tx * S * outcome unit)
    (s : S) :
  (bolt.Update db fn s).2 ≠ Ok () → (bolt.Update db fn s).1.1 = db.
Proof.
  unfold bolt.Update, bolt.Begin, bolt.Commit.
  destruct (bolt.opened db); [|done].
  destruct (fn (bolt.root db) s) as [[t' s'] [[]|e|p]]; simpl; [|done..].
  by destruct (bolt.sync_err db).
Qed.

Lemma Update_closure0 (b : BoltDB) (f : bolt.Tx → bolt.Tx * outcome unit) :
  bolt.Update b (closure0 f) () =
  if bolt.opened b then
    match f (bolt.root b) with
    | (tx, Ok _) =>
        match bolt.sync_err b with
        | Some e => (b, (), Err e)
        | None => (bolt.mkDB tx (bolt.opened b) (bolt.sync_err b), (), Ok ())
        end
    | (tx, Err e) => (b, (), Err e)
    | (tx, Panic p) => (b, (), Panic p)
    end
  else (b, (), Err bolt.ErrDatabaseNotOpen).
Proof.
  unfold bolt.Update, bolt.Begin, bolt.Commit, closure0.
  destruct (bolt.opened b); [|done].
  destruct (f (bolt.root b)) as [tx [[]|e|p]]; simpl; [|done..].
  by destruct (bolt.sync_err b).
Qed.

(** The result of a [Write], case by case. *)
Lemma Write_cases (b : BoltDB) (ns k : string) (v : bytes) :
  Write b ns k v =
  if bolt.opened b then
    match writeFunc ns k v (bolt.root b) with
    | (tx, Ok _) =>
        match bolt.sync_err b with
        | Some e => (b, Err e)
        | None => (bolt.mkDB tx (bolt.opened b) (bolt.sync_err b), Ok ())
        end
    | (tx, Err e) => (b, Err e)
    | (tx, Panic p) => (b, Panic p)
    end
  else (b, Err bolt.ErrDatabaseNotOpen).
Proof.
  unfold Write. rewrite Update_closure0.
  destruct (bolt.opened b); [|done].
  destruct (writeFunc ns k v (bolt.root b)) as [tx [[]|e|p]]; [|done..].
  by destruct (bolt.sync_err b).
Qed.

(** X1: No operation leaves a part of its writes behind: when [Write],
    [WriteMany], [Delete], [DeleteNamespace], [Update],
    [UpdateValueAndOperation] or [Execute] does not return without error
    (it returns an error or panics), the database is what it was. *)
Theorem no_partial_writes `{JSON} (b : BoltDB) :
  (∀ ns k v, (Write b ns k v).2 ≠ Ok () → (Write b ns k v).1 = b) ∧
  (∀ nss ks vs, (WriteMany b nss ks vs).2 ≠ Ok () → (WriteMany b nss ks vs).1 = b) ∧
  (∀ ns k, (Delete b ns k).2 ≠ Ok () → (Delete b ns k).1 = b) ∧
  (∀ ns, (DeleteNamespace b ns).2 ≠ Ok () → (DeleteNamespace b ns).1 = b) ∧
  (∀ ns k values,
     (Update b ns k values).2 ≠ Ok () → (Update b ns k values).1.1 = b) ∧
  (∀ ns k updater opNs opKey opUpdater,
     (UpdateValueAndOperation b ns k updater opNs opKey opUpdater).2 ≠ Ok () →
     (UpdateValueAndOperation b ns k updater opNs opKey opUpdater).1.1 = b) ∧
  (∀ A (fn : BusinessLogicFunc A) watchKeys,
     (∀ result, (Execute b fn watchKeys).2 ≠ Ok result) →
     (Execute b fn watchKeys).1 = b).
Proof.
  split_and!.
  - intros ns k v. unfold Write.
    pose proof (bolt_Update_atomic b (closure0 (writeFunc ns k v)) ()) as Hu.
    by destruct (bolt.Update _ _ _) as [[b' []] r].
  - intros nss ks vs. unfold WriteMany.
    destruct (_ && _); [done|].
    pose proof (bolt_Update_atomic b (closure0 (WriteMany_loop nss 0 ks vs)) ()) as Hu.
    by destruct (bolt.Update _ _ _) as [[b' []] r].
  - intros ns k. unfold Delete.
    match goal with |- context [bolt.Update b ?f ()] =>
      pose proof (bolt_Update_atomic b f ()) as Hu;
      by destruct (bolt.Update b f ()) as [[b' []] r] end.
  - intros ns. unfold DeleteNamespace.
    match goal with |- context [bolt.Update b ?f ()] =>
      pose proof (bolt_Update_atomic b f ()) as Hu;
      by destruct (bolt.Update b f ()) as [[b' []] r] end.
  - intros ns k values. apply bolt_Update_atomic.
  - intros ns k updater opNs opKey opUpdater. apply bolt_Update_atomic.
  - intros A fn watchKeys. unfold Execute, bolt.Begin, bolt.Commit.
    destruct (bolt.opened b); [|done].
    destruct (call fn (bolt.root b)) as [t [result|e|p]]; simpl; [|done..].
    destruct (bolt.sync_err b); [done|]. simpl. intros Hr. by destruct (Hr result).
Qed.

Lemma no_partial_writes_witness :
  let b := bolt.mkDB {[ "credential" := {[ "k" := [Byte.x00] ]} ]} true None in
  (Write b "schema" "" []).1 = b ∧
  (WriteMany b ["schema"; "credential"] ["k"; ""] [[]; []]).1 = b ∧
  (Execute b (BLWrite "schema" "k" [] (λ _, BLPanic (A:=unit) "boom")) []).1 = b.
Proof.
  intros b.
  destruct (@no_partial_writes empty_object_codec b)
    as (HW & HM & _ & _ & _ & _ & HE).
  split_and!.
  - apply HW. discriminate.
  - apply HM. discriminate.
  - apply HE. discriminate.
Defined.

(** ** Write *)

(** X2: [Write] returns nil exactly when the database is open, the namespace
    and the key are not empty, key and value are within bbolt's size
    limits, and the commit goes through. *)
Theorem Write_Ok_iff (b : BoltDB) (ns k : string) (v : bytes) :
  (Write b ns k v).2 = Ok () ↔
  bolt.opened b = true ∧ bolt.sync_err b = None ∧ ns ≠ "" ∧ k ≠ "" ∧
  (Z.of_nat (String.length k) ≤ bolt.MaxKeySize)%Z ∧
  (Z.of_nat (length v) ≤ bolt.MaxValueSize)%Z.
Proof.
  rewrite Write_cases. unfold writeFunc, bolt.Tx_CreateBucketIfNotExists, bolt.Bucket_Put.
  destruct (bolt.opened b); [|split; [done|intuition congruence]].
  destruct (decide (ns = "")); [split; [done|intuition congruence]|].
  assert (∀ tx : bolt.Tx,
    (match
       (if decide (k = "") then (tx, Some bolt.ErrKeyRequired)
        else if (Z.of_nat (String.length k) >? bolt.MaxKeySize)%Z
             then (tx, Some bolt.ErrKeyTooLarge)
             else if (Z.of_nat (length v) >? bolt.MaxValueSize)%Z
                  then (tx, Some bolt.ErrValueTooLarge)
                  else (alter (insert k v) ns tx, None))
     with
     | (tx0, None) => (tx0, Ok ())
     | (tx0, Some err) => (tx0, Err err)
     end).2 = Ok () ↔
    k ≠ "" ∧ (Z.of_nat (String.length k) ≤ bolt.MaxKeySize)%Z ∧
    (Z.of_nat (length v) ≤ bolt.MaxValueSize)%Z) as Hput.
  { intros tx. destruct (decide (k = "")); [split; [done|intuition congruence]|].
    destruct (Z.gtb_spec (Z.of_nat (String.length k)) bolt.MaxKeySize);
      [simpl; split; [done|lia]|].
    destruct (Z.gtb_spec (Z.of_nat (length v)) bolt.MaxValueSize);
      [simpl; split; [done|lia]|].
    simpl. split; [|done]. intros _. split_and!; [done|lia|lia]. }
  destruct (bolt.root b !! ns) eqn:Hns.
  - specialize (Hput (bolt.root b)).
    destruct (if decide (k = "") then _ else _) as [tx [e|]]; simpl in *.
    + split; [done|]. intros (_ & _ & _ & ?). by apply Hput.
    + destruct (bolt.sync_err b); simpl; [split; [done|intuition congruence]|].
      split; [|done]. intros _. split_and!; try done; by apply Hput.
  - specialize (Hput (<[ns:=∅]> (bolt.root b))).
    destruct (if decide (k = "") then _ else _) as [tx [e|]]; simpl in *.
    + split; [done|]. intros (_ & _ & _ & ?). by apply Hput.
    + destruct (bolt.sync_err b); simpl; [split; [done|intuition congruence]|].
      split; [|done]. intros _. split_and!; try done; by apply Hput.
Qed.

(** X3: A [Write] that succeeded changes no other key. *)
Theorem Write_frame (b b' : BoltDB) (ns k : string) (v : bytes) (ns' k' : string) :
  Write b ns k v = (b', Ok ()) → (ns', k') ≠ (ns, k) →
  Read b' ns' k' = Read b ns' k'.
Proof.
  rewrite Write_cases. destruct (bolt.opened b) eqn:Ho; [|done].
  destruct (writeFunc ns k v (bolt.root b)) as [tx [[]|e|p]] eqn:Hw; [|done..].
  destruct (bolt.sync_err b); [done|]. intros [= <-] Hne.
  rewrite !Read_opened by done. simpl.
  rewrite (writeFunc_Ok _ _ _ _ _ Hw).
  rewrite decide_False; [done|]. intros [-> ->]. done.
Qed.

Lemma Write_frame_witness :
  let b := bolt.mkDB {[ "credential" := {[ "k" := [Byte.x00] ]} ]} true None in
  Read (Write b "credential" "k2" []).1 "credential" "k" = Read b "credential" "k".
Proof.
  intros b. apply (Write_frame b _ "credential" "k2" []); [reflexivity|discriminate].
Defined.

(** X4: Writing the value a key already holds leaves the database as it
    was. *)
Theorem Write_same_value (b : BoltDB) (ns k : string) (v : bytes) :
  (Read b ns k).1 = Some v → (Write b ns k v).2 = Ok () →
  (Write b ns k v).1 = b.
Proof.
  intros Hread. rewrite Write_cases. destruct (bolt.opened b) eqn:Ho; [|done].
  rewrite Read_opened in Hread by done. simpl in Hread.
  unfold bolt.Bucket_Get in Hread.
  destruct (bolt.root b !! ns) as [bk|] eqn:Hns; [|done]. simpl in Hread.
  unfold writeFunc, bolt.Tx_CreateBucketIfNotExists.
  destruct (decide (ns = "")); [done|]. rewrite Hns.
  destruct (bolt.Bucket_Put (bolt.root b) ns k v) as [tx [e|]] eqn:Hp; [done|].
  apply Bucket_Put_Ok in Hp as ->.
  destruct (bolt.sync_err b) eqn:Hs; [done|]. intros _. simpl.
  replace (alter (insert k v) ns (bolt.root b)) with (bolt.root b).
  - destruct b; simpl in *; by subst.
  - apply map_eq. intros i. rewrite lookup_alter. case_decide; [subst i|done].
    rewrite Hns. simpl. by rewrite insert_id.
Qed.

Lemma Write_same_value_witness :
  let b := bolt.mkDB {[ "credential" := {[ "k" := [Byte.x00] ]} ]} true None in
  (Write b "credential" "k" [Byte.x00]).1 = b.
Proof. intros b. apply Write_same_value; reflexivity. Defined.

(** ** Exists *)

(** X5: [Exists] answers true exactly when [Read] returns a value, and
    returns the error [Read] returns. *)
Theorem Exists_Read (b : BoltDB) (ns k : string) :
  Exists b ns k = (bool_decide (is_Some (Read b ns k).1), (Read b ns k).2).
Proof.
  unfold Exists, Read, bolt.View, bolt.Begin.
  destruct (bolt.opened b); [|done].
  unfold bolt.Tx_Bucket, bolt.Bucket_Get.
  destruct (bolt.root b !! ns) as [bk|] eqn:Hns; simpl; [|done].
  rewrite Hns. simpl. by destruct (bk !! k).
Qed.

(** ** Delete and DeleteNamespace *)

Lemma Delete_cases (b : BoltDB) (ns k : string) :
  Delete b ns k =
  if bolt.opened b then
    match bolt.root b !! ns with
    | None => (b, Err (ErrNew ("namespace<" +:+ ns +:+ "> does not exist")))
    | Some _ =>
        match bolt.sync_err b with
        | Some e => (b, Err e)
        | None => (bolt.mkDB (alter (delete k) ns (bolt.root b))
                     (bolt.opened b) (bolt.sync_err b), Ok ())
        end
    end
  else (b, Err bolt.ErrDatabaseNotOpen).
Proof.
  unfold Delete. rewrite Update_closure0. destruct (bolt.opened b); [|done].
  unfold bolt.Tx_Bucket. destruct (bolt.root b !! ns); [|done]. simpl.
  by destruct (bolt.sync_err b).
Qed.

Lemma Bucket_Get_alter_delete (tx : bolt.Tx) ns k ns' k' :
  bolt.Bucket_Get (alter (delete k) ns tx) ns' k' =
  if decide (ns = ns' ∧ k = k') then None else bolt.Bucket_Get tx ns' k'.
Proof.
  unfold bolt.Bucket_Get. rewrite lookup_alter.
  destruct (decide (ns = ns')) as [<-|Hne].
  - destruct (tx !! ns) as [bk|]; simpl.
    + rewrite lookup_delete. destruct (decide (k = k')) as [<-|Hk].
      * by rewrite decide_True.
      * rewrite decide_False; [done|by intros [_ ?]].
    + by case_decide.
  - rewrite decide_False; [done|by intros [? _]].
Qed.

(** X6: After a [Delete] that returned nil the key reads as nil and every
    other key reads as before. *)
Theorem Delete_removes_key (b b' : BoltDB) (ns k : string) :
  Delete b ns k = (b', Ok ()) →
  Read b' ns k = (None, Ok ()) ∧
  ∀ ns' k', (ns', k') ≠ (ns, k) → Read b' ns' k' = Read b ns' k'.
Proof.
  rewrite Delete_cases. destruct (bolt.opened b) eqn:Ho; [|done].
  destruct (bolt.root b !! ns); [|done].
  destruct (bolt.sync_err b); [done|]. intros [= <-]. split.
  - rewrite Read_opened by done. simpl. rewrite Bucket_Get_alter_delete.
    by rewrite decide_True.
  - intros ns' k' Hne. rewrite !Read_opened by done. simpl.
    rewrite Bucket_Get_alter_delete. rewrite decide_False; [done|].
    intros [-> ->]. done.
Qed.

Lemma Delete_removes_key_witness :
  let b := bolt.mkDB {[ "credential" := {[ "k" := [Byte.x00]; "k2" := [] ]} ]}
             true None in
  Read (Delete b "credential" "k").1 "credential" "k" = (None, Ok ()) ∧
  Read (Delete b "credential" "k").1 "credential" "k2" = Read b "credential" "k2".
Proof.
  intros b.
  destruct (Delete_removes_key b _ "credential" "k" eq_refl) as [H1 H2].
  split; [exact H1|]. apply H2. discriminate.
Defined.



Lemma DeleteNamespace_cases (b : BoltDB) (ns : string) :
  DeleteNamespace b ns =
  if bolt.opened b then
    match bolt.root b !! ns with
    | None => (b, Err (ErrWrap ErrBucketNotFound
                         ("could not delete namespace<" +:+ ns +:+ ">")))
    | Some _ =>
        match bolt.sync_err b with
        | Some e => (b, Err e)
        | None => (bolt.mkDB (delete ns (bolt.root b))
                     (bolt.opened b) (bolt.sync_err b), Ok ())
        end
    end
  else (b, Err bolt.ErrDatabaseNotOpen).
Proof.
  unfold DeleteNamespace. rewrite Update_closure0. destruct (bolt.opened b); [|done].
  unfold Tx_DeleteBucket. destruct (bolt.root b !! ns); [|done].
  by destruct (bolt.sync_err b).
Qed.

(** X8: [DeleteNamespace] of a namespace that does not exist returns an error
    (on an open database, bbolt's "bucket not found" wrapped with the
    namespace) and leaves the database as it was. *)
Theorem DeleteNamespace_absent (b : BoltDB) (ns : string) :
  bolt.root b !! ns = None →
  (DeleteNamespace b ns).1 = b ∧ is_Err (DeleteNamespace b ns).2 ∧
  (bolt.opened b = true →
   (DeleteNamespace b ns).2
   = Err (ErrWrap ErrBucketNotFound ("could not delete namespace<" +:+ ns +:+ ">"))).
Proof.
  intros Hns. rewrite DeleteNamespace_cases, Hns.
  by destruct (bolt.opened b).
Qed.

Lemma DeleteNamespace_absent_witness :
  let b := bolt.mkDB {[ "credential" := ∅ ]} true None in
  (DeleteNamespace b "bad").2
  = Err (ErrWrap ErrBucketNotFound "could not delete namespace<bad>").
Proof.
  intros b. apply (DeleteNamespace_absent b "bad"); reflexivity.
Defined.

(** X9: After a [DeleteNamespace] that returned nil the namespace is gone:
    its keys read as nil and a [Delete] in it is an error, while the keys
    of the other namespaces read as before. *)
Theorem DeleteNamespace_removes (b b' : BoltDB) (ns : string) :
  DeleteNamespace b ns = (b', Ok ()) →
  bolt.root b' !! ns = None ∧
  (∀ k, Read b' ns k = (None, Ok ())) ∧
  (∀ k, is_Err (Delete b' ns k).2) ∧
  (∀ ns' k, ns' ≠ ns → Read b' ns' k = Read b ns' k).
Proof.
  rewrite DeleteNamespace_cases. destruct (bolt.opened b) eqn:Ho; [|done].
  destruct (bolt.root b !! ns) as [bk|] eqn:Hns; [|done].
  destruct (bolt.sync_err b) eqn:Hs; [done|]. intros [= <-].
  split_and!.
  - apply lookup_delete_eq.
  - intros k. rewrite Read_opened by done. simpl.
    unfold bolt.Bucket_Get. by rewrite lookup_delete_eq.
  - intros k. rewrite Delete_cases. simpl. by rewrite lookup_delete_eq.
  - intros ns' k Hne. rewrite !Read_opened by done. simpl.
    unfold bolt.Bucket_Get. by rewrite lookup_delete_ne.
Qed.

Lemma DeleteNamespace_removes_witness :
  let b := bolt.mkDB {[ "credential" := {[ "k" := [Byte.x00] ]};
                         "schema" := {[ "s" := [] ]} ]} true None in
  Read (DeleteNamespace b "credential").1 "credential" "k" = (None, Ok ()) ∧
  Read (DeleteNamespace b "credential").1 "schema" "s" = Read b "schema" "s".
Proof.
  intros b.
  destruct (DeleteNamespace_removes b _ "credential" eq_refl) as (_ & H1 & _ & H2).
  split; [apply H1|]. apply H2. discriminate.
Defined.

(** ** ReadAll, ReadAllKeys and ReadPrefix *)

Lemma prefix_empty (k : string) : String.prefix "" k = true.
Proof. by destruct k. Qed.

Lemma prefix_trans (p q k : string) :
  String.prefix p q = true → String.prefix q k = true → String.prefix p k = true.
Proof.
  revert q k. induction p as [|a p IH]; intros q k;
    [intros _ _; apply prefix_empty|].
  destruct q as [|c q]; [done|]. destruct k as [|d k]; [simpl; congruence|]. simpl.
  destruct (Ascii.ascii_dec a c) as [<-|]; [|done].
  destruct (Ascii.ascii_dec a d) as [<-|]; [|done].
  apply IH.
Qed.

Lemma Cursor_Seek_empty (c : list (string * bytes)) : bolt.Cursor_Seek c "" = c.
Proof.
  destruct c as [|[k v] c]; [done|]. simpl.
  rewrite decide_True; [done|]. by destruct k.
Qed.

Lemma ReadAll_loop_ReadPrefix_loop (c : list (string * bytes)) :
  ∀ result, ReadAll_loop c result = ReadPrefix_loop c "" result.
Proof.
  induction c as [|[k v] c IH]; intros result; [done|]. simpl.
  by rewrite prefix_empty.
Qed.

(** What [ReadPrefix] holds for a key, on any database. *)
Lemma ReadPrefix_lookup (b : BoltDB) (ns p k : string) :
  (ReadPrefix b ns p).1 !! k =
  if String.prefix p k then (Read b ns k).1 else None.
Proof.
  unfold ReadPrefix, Read, bolt.View, bolt.Begin.
  destruct (bolt.opened b); simpl; [|rewrite lookup_empty; by destruct (String.prefix p k)].
  unfold bolt.Tx_Bucket.
  destruct (bolt.root b !! ns) as [bk|] eqn:Hns; simpl;
    [|rewrite lookup_empty; by destruct (String.prefix p k)].
  apply option_eq. intros v.
  rewrite Seek_loop_filter by apply Bucket_Cursor_sorted.
  pose proof (foldl_assign_lookup (λ k, String.prefix p k = true) _
                (Bucket_Cursor_NoDup (bolt.root b) ns) ∅ k v) as Hl.
  simpl in Hl. rewrite Hl, lookup_empty, Bucket_Cursor_elem_of.
  destruct (String.prefix p k); split.
  - by intros [[? _]|[_ ?]].
  - intros ?. by left.
  - by intros [[_ ?]|[_ ?]].
  - done.
Qed.

Lemma ReadAll_ReadPrefix (b : BoltDB) (ns : string) :
  ReadAll b ns = ReadPrefix b ns "".
Proof.
  unfold ReadPrefix, ReadAll, bolt.View, Cursor_First.
  destruct (bolt.Begin b) as [t| |]; [|done..].
  destruct (bolt.Tx_Bucket t ns); [|done].
  by rewrite Cursor_Seek_empty, ReadAll_loop_ReadPrefix_loop.
Qed.

Lemma ReadAll_lookup_value (b : BoltDB) (ns k : string) :
  (ReadAll b ns).1 !! k = (Read b ns k).1.
Proof. rewrite ReadAll_ReadPrefix, ReadPrefix_lookup. by rewrite prefix_empty. Qed.

(** X10: [ReadPrefix] with the empty prefix is [ReadAll]. *)
Theorem ReadPrefix_empty_prefix (b : BoltDB) (ns : string) :
  ReadPrefix b ns "" = ReadAll b ns.
Proof. symmetry. apply ReadAll_ReadPrefix. Qed.

(** X11: [ReadAll] returns the namespace as [Read] sees it, key by key, with
    the error [Read] returns. *)
Theorem ReadAll_lookup (b : BoltDB) (ns k : string) :
  (ReadAll b ns).1 !! k = (Read b ns k).1 ∧ (ReadAll b ns).2 = (Read b ns k).2.
Proof.
  split.
  - apply ReadAll_lookup_value.
  - unfold ReadAll, Read, bolt.View. destruct (bolt.Begin b) as [t| |]; [|done..].
    by destruct (bolt.Tx_Bucket t ns).
Qed.

(** X12: [ReadPrefix] returns the pairs of [ReadAll] whose key has the
    prefix. *)
Theorem ReadPrefix_filter_ReadAll (b : BoltDB) (ns p : string) :
  (ReadPrefix b ns p).1
  = filter (λ kv, String.prefix p kv.1 = true) (ReadAll b ns).1.
Proof.
  apply map_eq. intros k. apply option_eq. intros v.
  rewrite map_lookup_filter_Some, ReadPrefix_lookup. simpl.
  rewrite ReadAll_lookup_value.
  destruct (String.prefix p k).
  - split; [by intros ?|by intros [? _]].
  - split; [done|by intros [_ ?]].
Qed.

(** X13: A longer prefix selects a part of what a shorter one selects. *)
Theorem ReadPrefix_narrow (b : BoltDB) (ns p q : string) :
  String.prefix p q = true →
  (ReadPrefix b ns q).1 ⊆ (ReadPrefix b ns p).1.
Proof.
  intros Hpq. apply map_subseteq_spec. intros k v.
  rewrite !ReadPrefix_lookup.
  destruct (String.prefix q k) eqn:Hqk; [|done].
  by rewrite (prefix_trans p q k Hpq Hqk).
Qed.

Lemma ReadPrefix_narrow_witness :
  let b := bolt.mkDB {[ "credential" :=
             {[ "a-is:x" := [Byte.x00]; "ab-is:y" := [Byte.x01] ]} ]} true None in
  (ReadPrefix b "credential" "ab").1 ⊆ (ReadPrefix b "credential" "a").1.
Proof. intros b. apply ReadPrefix_narrow. reflexivity. Defined.

Lemma ReadAllKeys_loop_app (c : list (string * bytes)) :
  ∀ result, ReadAllKeys_loop c result = (result ++ c.*1)%list.
Proof.
  induction c as [|[k v] c IH]; intros result; simpl.
  - by rewrite app_nil_r.
  - rewrite IH. by rewrite <-app_assoc.
Qed.

(** X14: [ReadAllKeys] lists the keys of the namespace in byte order, each
    once: a key is listed exactly when [Read] returns a value for it. *)
Theorem ReadAllKeys_sorted_exact (b : BoltDB) (ns : string) :
  StronglySorted String.le (ReadAllKeys b ns).1 ∧
  NoDup (ReadAllKeys b ns).1 ∧
  ∀ k, k ∈ (ReadAllKeys b ns).1 ↔ is_Some (Read b ns k).1.
Proof.
  unfold ReadAllKeys, Read, bolt.View, bolt.Begin, Cursor_First.
  destruct (bolt.opened b); simpl.
  2:{ split_and!; [constructor..|]. intros k. split; [by intros ?%elem_of_nil|].
      by intros [? ?]. }
  unfold bolt.Tx_Bucket.
  destruct (bolt.root b !! ns) as [bk|] eqn:Hns; simpl.
  2:{ split_and!; [constructor..|]. intros k. split; [by intros ?%elem_of_nil|].
      by intros [? ?]. }
  rewrite ReadAllKeys_loop_app. simpl. split_and!.
  - apply (StronglySorted_fmap _ bolt.key_le); [done|apply Bucket_Cursor_sorted].
  - apply Bucket_Cursor_NoDup.
  - intros k. rewrite list_elem_of_fmap. split.
    + intros ([k' v] & -> & Hin). apply Bucket_Cursor_elem_of in Hin.
      simpl. by rewrite Hin.
    + intros [v Hv]. exists (k, v). split; [done|]. by apply Bucket_Cursor_elem_of.
Qed.

(** ** WriteMany and Execute against Write *)

Lemma Update_closure0_Ok (b b' : BoltDB) (f : bolt.Tx → bolt.Tx * outcome unit) :
  bolt.Update b (closure0 f) () = (b', (), Ok ()) ↔
  bolt.opened b = true ∧ bolt.sync_err b = None ∧
  ∃ tx, f (bolt.root b) = (tx, Ok ()) ∧
        b' = bolt.mkDB tx (bolt.opened b) (bolt.sync_err b).
Proof.
  rewrite Update_closure0. destruct (bolt.opened b).
  2:{ split; [done|]. by intros [? _]. }
  destruct (f (bolt.root b)) as [tx [[]|e|p]].
  - destruct (bolt.sync_err b).
    + split; [done|]. by intros (_ & ? & _).
    + split.
      * intros [= <-]. split_and!; [done..|]. by exists tx.
      * intros (_ & _ & tx' & [= <-] & ->). done.
  - split; [done|]. by intros (_ & _ & tx' & ? & _).
  - split; [done|]. by intros (_ & _ & tx' & ? & _).
Qed.

Lemma Write_Ok (b b' : BoltDB) (ns k : string) (v : bytes) :
  Write b ns k v = (b', Ok ()) ↔
  bolt.opened b = true ∧ bolt.sync_err b = None ∧
  ∃ tx, writeFunc ns k v (bolt.root b) = (tx, Ok ()) ∧
        b' = bolt.mkDB tx (bolt.opened b) (bolt.sync_err b).
Proof.
  rewrite <-Update_closure0_Ok. unfold Write.
  destruct (bolt.Update b _ ()) as [[b1 []] r]. split; congruence.
Qed.

(** The loop only looks at the keys and values below the number of
    namespaces. *)
Lemma WriteMany_loop_take (rest : list string) :
  ∀ i keys values (tx : bolt.Tx),
    WriteMany_loop rest i keys values tx =
    WriteMany_loop rest i (take (i + length rest) keys)
      (take (i + length rest) values) tx.
Proof.
  induction rest as [|ns0 rest IH]; intros i keys values tx; [done|].
  simpl. destruct (bolt.Tx_CreateBucketIfNotExists tx ns0) as [tx1 [bucket|e|p]];
    [|done..].
  rewrite !lookup_take_lt by lia.
  destruct (keys !! i) as [k0|]; [|done].
  destruct (values !! i) as [v0|]; [|done].
  destruct (bolt.Bucket_Put tx1 bucket k0 v0) as [tx2 [e|]]; [done|].
  rewrite (IH (S i) keys values tx2).
  rewrite (IH (S i) (take (i + S (length rest)) keys)
             (take (i + S (length rest)) values) tx2).
  rewrite !take_take.
  by replace ((S i + length rest) `min` (i + S (length rest)))%nat
    with (S i + length rest)%nat by lia.
Qed.

(** X15: [WriteMany] accepts a call whose keys or values outnumber the
    namespaces, as long as one of the two has the right length: what is
    beyond the namespaces is ignored and the call does not panic. *)
Theorem WriteMany_surplus_ignored (b : BoltDB) namespaces keys values :
  (length namespaces ≤ length keys)%nat →
  (length namespaces ≤ length values)%nat →
  length namespaces = length keys ∨ length namespaces = length values →
  WriteMany b namespaces keys values
  = WriteMany b namespaces (take (length namespaces) keys)
      (take (length namespaces) values) ∧
  ∀ p, (WriteMany b namespaces keys values).2 ≠ Panic p.
Proof.
  intros Hk Hv Heq.
  assert (WriteMany b namespaces keys values
          = WriteMany b namespaces (take (length namespaces) keys)
              (take (length namespaces) values)) as Hsame.
  { unfold WriteMany. rewrite !length_take.
    replace (bool_decide (length namespaces ≠ length keys)
             && bool_decide (length namespaces ≠ length values)) with false.
    2:{ symmetry. apply andb_false_iff.
        destruct Heq; [left|right]; by apply bool_decide_eq_false_2; intros ?. }
    rewrite (bool_decide_eq_false_2 (length namespaces ≠ _ `min` length keys)%nat)
      by lia.
    simpl. unfold bolt.Update, closure0.
    destruct (bolt.Begin b) as [t| |]; [|done..].
    by rewrite (WriteMany_loop_take namespaces 0 keys values t). }
  split; [done|]. rewrite Hsame. intros p Hp.
  destruct (WriteMany_atomic_last_write b namespaces
              (take (length namespaces) keys) (take (length namespaces) values))
    as [[Hok _]|[Herr _]].
  - rewrite length_take. lia.
  - rewrite length_take. lia.
  - congruence.
  - by rewrite Hp in Herr.
Qed.

Lemma WriteMany_surplus_ignored_witness :
  let b := bolt.mkDB ∅ true None in
  WriteMany b ["credential"] ["k"] [[Byte.x00]; [Byte.x01]]
  = WriteMany b ["credential"] ["k"] [[Byte.x00]].
Proof.
  intros b.
  apply (WriteMany_surplus_ignored b ["credential"] ["k"] [[Byte.x00]; [Byte.x01]]);
    simpl; [lia|lia|by left].
Defined.

Lemma WriteMany_loop_Write_each (rest : list string) :
  ∀ i keys values (b b' : BoltDB),
    (i + length rest ≤ length keys)%nat → (i + length rest ≤ length values)%nat →
    bolt.opened b = true → bolt.sync_err b = None →
    bolt.Update b (closure0 (WriteMany_loop rest i keys values)) () = (b', (), Ok ()) ↔
    Write_each b (batch rest (drop i keys) (drop i values)) = (b', Ok ()).
Proof.
  induction rest as [|ns0 rest IH]; intros i keys values b b' Hk Hv Ho Hs.
  - rewrite Update_closure0_Ok. simpl. split.
    + intros (_ & _ & tx & [= <-] & ->). by rewrite DB_eta.
    + intros [= <-]. split_and!; [done..|]. exists (bolt.root b). by rewrite DB_eta.
  - simpl in Hk, Hv.
    destruct (lookup_lt_is_Some_2 keys i) as [k0 Hk0]; [lia|].
    destruct (lookup_lt_is_Some_2 values i) as [v0 Hv0]; [lia|].
    rewrite Update_closure0_Ok, (WriteMany_loop_cons _ _ _ _ _ _ _ _ Hk0 Hv0).
    rewrite (drop_S _ _ _ Hk0), (drop_S _ _ _ Hv0).
    change (batch (ns0 :: rest) (k0 :: drop (S i) keys) (v0 :: drop (S i) values))
      with ((ns0, k0, v0) :: batch rest (drop (S i) keys) (drop (S i) values)).
    cbn [Write_each].
    destruct (Write b ns0 k0 v0) as [b1 r1] eqn:HW.
    destruct (writeFunc ns0 k0 v0 (bolt.root b)) as [tx1 [[]|e|p]] eqn:Hw.
    + assert (Write b ns0 k0 v0
              = (bolt.mkDB tx1 (bolt.opened b) (bolt.sync_err b), Ok ())) as HW'.
      { apply Write_Ok. split_and!; [done..|]. by exists tx1. }
      rewrite HW' in HW. injection HW as <- <-.
      rewrite <-(IH (S i)); [|lia|lia|done|done].
      rewrite Update_closure0_Ok. simpl. split.
      * intros (_ & _ & tx2 & Hl & ->). split_and!; [done..|]. by exists tx2.
      * intros (_ & _ & tx2 & Hl & ->). split_and!; [done..|]. by exists tx2.
    + rewrite Write_cases, Ho, Hw in HW. injection HW as <- <-. split; [|done].
      by intros (_ & _ & tx2 & ? & _).
    + rewrite Write_cases, Ho, Hw in HW. injection HW as <- <-. split; [|done].
      by intros (_ & _ & tx2 & ? & _).
Qed.

(** X16: A [WriteMany] that returns nil leaves the database that writing the
    entries one by one with [Write] leaves; and when the one-by-one writes
    of a batch that is not empty all return nil, so does [WriteMany]. *)
Theorem WriteMany_as_Writes (b b' : BoltDB) namespaces keys values :
  length namespaces = length keys → length namespaces = length values →
  (WriteMany b namespaces keys values = (b', Ok ()) →
   Write_each b (batch namespaces keys values) = (b', Ok ())) ∧
  (namespaces ≠ [] →
   Write_each b (batch namespaces keys values) = (b', Ok ()) →
   WriteMany b namespaces keys values = (b', Ok ())).
Proof.
  intros Hk Hv.
  assert (WriteMany b namespaces keys values = (b', Ok ()) ↔
          bolt.Update b (closure0 (WriteMany_loop namespaces 0 keys values)) ()
          = (b', (), Ok ())) as HWM.
  { unfold WriteMany.
    rewrite (bool_decide_eq_false_2 (length namespaces ≠ length keys)) by tauto.
    simpl. destruct (bolt.Update b _ ()) as [[b1 []] r]. split; congruence. }
  rewrite HWM. split.
  - intros HU. pose proof HU as (Ho & Hs & _)%Update_closure0_Ok.
    apply (WriteMany_loop_Write_each namespaces 0) in HU; [done|lia..|done|done].
  - intros Hne HW.
    destruct namespaces as [|ns0 rest]; [done|].
    destruct keys as [|k0 keys]; [done|]. destruct values as [|v0 values]; [done|].
    assert (bolt.opened b = true ∧ bolt.sync_err b = None) as [Ho Hs].
    { simpl in HW. destruct (Write b ns0 k0 v0) as [b1 [[]|e|p]] eqn:HW1; [|done..].
      by apply Write_Ok in HW1 as (? & ? & _). }
    apply (WriteMany_loop_Write_each (ns0 :: rest) 0); try done; simpl in *; lia.
Qed.

Lemma WriteMany_as_Writes_witness :
  let b := bolt.mkDB ∅ true None in
  Write_each b [("credential", "k", [Byte.x00]); ("schema", "s", [])]
  = WriteMany b ["credential"; "schema"] ["k"; "s"] [[Byte.x00]; []].
Proof.
  intros b.
  apply (proj1 (WriteMany_as_Writes b _ ["credential"; "schema"] ["k"; "s"]
                  [[Byte.x00]; []] eq_refl eq_refl)).
  reflexivity.
Defined.

(** X17: A business-logic function that makes one write and returns its error
    does through [Execute] what [Write] does: the same database results,
    and one returns nil exactly when the other does. *)
Theorem Execute_single_Write (b : BoltDB) (ns k : string) (v : bytes)
    (watchKeys : list WatchKey) :
  let fn := BLWrite ns k v (λ err, BLReturn () err) in
  (Execute b fn watchKeys).1 = (Write b ns k v).1 ∧
  ((Execute b fn watchKeys).2 = Ok () ↔ (Write b ns k v).2 = Ok ()).
Proof.
  intros fn. subst fn. rewrite Write_cases.
  unfold Execute, bolt.Begin, bolt.Commit. simpl. unfold boltTx_Write.
  destruct (bolt.opened b); [|done].
  destruct (writeFunc ns k v (bolt.root b)) as [tx [[]|e|p]]; simpl; [|done..].
  by destruct (bolt.sync_err b).
Qed.

(** ** Update and the map updater *)

Lemma assign_entries_union `{JSON} (entries : list (string * any)) :
  NoDup entries.*1 →
  ∀ m, assign_entries entries (Some m) = Ok (Some (list_to_map entries ∪ m)).
Proof.
  induction entries as [|[k val] entries IH]; intros Hnd m; simpl.
  - by rewrite (left_id_L ∅ (∪)).
  - rewrite fmap_cons in Hnd. apply NoDup_cons in Hnd as [Hk Hnd].
    rewrite (IH Hnd). do 2 f_equal.
    rewrite <-insert_union_l. symmetry. apply insert_union_r.
    by apply not_elem_of_list_to_map_1.
Qed.

(** X18: [UpdaterWithMap.Update] on a stored JSON object encodes the object
    with the updater's fields laid over it: a field the updater names
    takes the updater's value, every other field is kept. *)
Theorem UpdaterWithMap_Update_merge `{JSON} (values model : gmap string any)
    (v : bytes) :
  json_Unmarshal v = inr (Some model) →
  UpdaterWithMap_Update (NewUpdater values) v =
  match json_Marshal (Some (values ∪ model)) with
  | inl err => Err (ErrWrap err "marshalling updated struct")
  | inr data => Ok data
  end.
Proof.
  intros Hv. unfold UpdaterWithMap_Update. rewrite Hv. simpl.
  rewrite assign_entries_union by apply NoDup_fst_map_to_list.
  by rewrite list_to_map_to_list.
Qed.

Lemma UpdaterWithMap_Update_merge_witness :
  @UpdaterWithMap_Update null_fields_codec
    (@NewUpdater null_fields_codec {[ "done" := () ]})
    (String.list_byte_of_string "{}")
  = Ok (String.list_byte_of_string ("{" +:+ quote +:+ "done" +:+ quote +:+ ":null}")).
Proof.
  rewrite (@UpdaterWithMap_Update_merge null_fields_codec {[ "done" := () ]} ∅);
    reflexivity.
Defined.

(** X19: When the stored blob is the JSON [null], the decoded map stays nil
    and [Update] with a field to set panics on the assignment instead of
    returning an error; the transaction is rolled back. *)
Theorem Update_nil_map_panics `{JSON} (b : BoltDB) (ns k : string) (v : bytes)
    (values : gmap string any) :
  bolt.opened b = true →
  (Read b ns k).1 = Some v →
  json_Unmarshal v = inr None →
  values ≠ ∅ →
  Update b ns k values = (b, None, Panic "assignment to entry in nil map").
Proof.
  intros Ho Hread Hv Hne. rewrite Read_opened in Hread by done. simpl in Hread.
  unfold Update, bolt.Update, bolt.Begin, updateTxFn, updateTx, bolt.Tx_Bucket.
  rewrite Ho. unfold bolt.Bucket_Get in Hread.
  destruct (bolt.root b !! ns) as [bk|] eqn:Hns; [|done]. simpl in Hread.
  unfold bolt.Bucket_Get. rewrite Hns. simpl. rewrite Hread. simpl.
  unfold UpdaterWithMap_Update. rewrite Hv. simpl.
  destruct (map_to_list values) as [|[k0 v0] l] eqn:Hl; [|done].
  by apply map_to_list_empty_iff in Hl.
Qed.

Lemma Update_nil_map_panics_witness :
  let b := bolt.mkDB {[ "operation" := {[ "op" := String.list_byte_of_string "null" ]} ]}
             true None in
  @Update null_fields_codec b "operation" "op" {[ "done" := () ]}
  = (b, None, Panic "assignment to entry in nil map").
Proof.
  intros b.
  apply (@Update_nil_map_panics null_fields_codec b "operation" "op"
           (String.list_byte_of_string "null")); try reflexivity.
  intros Hempty. by apply (f_equal (λ m, m !! "done")) in Hempty.
Defined.

(** X20: After an [Update] that returned nil, the key holds the blob the map
    updater made from the stored one, that blob is what [Update] returned,
    and every other key reads as before. *)
Theorem Update_Ok `{JSON} (b b' : BoltDB) (ns k : string)
    (values : gmap string any) (updatedData : option bytes) :
  Update b ns k values = (b', updatedData, Ok ()) →
  ∃ v data,
    (Read b ns k).1 = Some v ∧
    UpdaterWithMap_Update (NewUpdater values) v = Ok data ∧
    updatedData = Some data ∧
    Read b' ns k = (Some data, Ok ()) ∧
    ∀ ns' k', (ns', k') ≠ (ns, k) → Read b' ns' k' = Read b ns' k'.
Proof.
  unfold Update, bolt.Update, bolt.Begin, updateTxFn.
  destruct (bolt.opened b) eqn:Ho; [|done].
  destruct (updateTx (bolt.root b) ns k _) as [tx [data|e|p]] eqn:Hu; [|done..].
  unfold bolt.Commit. destruct (bolt.sync_err b); [done|]. intros [= <- <-].
  apply updateTx_Ok in Hu as (v & Hv & _ & Hupd & Hsome & ->).
  exists v, data. rewrite !Read_opened by done. simpl. split_and!; try done.
  - rewrite Bucket_Get_alter_insert by done. by rewrite decide_True.
  - intros ns' k' Hne. rewrite !Read_opened by done. simpl.
    rewrite Bucket_Get_alter_insert by done.
    rewrite decide_False; [done|]. intros [-> ->]. done.
Qed.

Lemma Update_Ok_witness :
  let b := bolt.mkDB {[ "operation" := {[ "op" := String.list_byte_of_string "{}" ]} ]}
             true None in
  ∃ data, (@Update null_fields_codec b "operation" "op" {[ "done" := () ]}).1.2
          = Some data ∧
          Read (@Update null_fields_codec b "operation" "op" {[ "done" := () ]}).1.1
            "operation" "op" = (Some data, Ok ()).
Proof.
  intros b.
  destruct (@Update_Ok null_fields_codec b
              (@Update null_fields_codec b "operation" "op" {[ "done" := () ]}).1.1
              "operation" "op" {[ "done" := () ]}
              (@Update null_fields_codec b "operation" "op" {[ "done" := () ]}).1.2)
    as (v & data & _ & _ & Hret & Hread & _); [reflexivity|].
  exists data. split; [exact Hret|exact Hread].
Defined.

(** X21: [UpdateValueAndOperation] does not create the operation either: when
    nothing is stored at [(opNs, opKey)] it does not return nil, and the
    database is what it was, the update of [(ns, key)] included. *)
Theorem UpdateValueAndOperation_op_absent (b : BoltDB) (ns key : string)
    (updater : Updater) (opNs opKey : string) (opUpdater : ResponseSettingUpdater) :
  (bolt.root b !! opNs = None ∨
   ∃ bk, bolt.root b !! opNs = Some bk ∧ bk !! opKey = None) →
  (UpdateValueAndOperation b ns key updater opNs opKey opUpdater).2 ≠ Ok () ∧
  (UpdateValueAndOperation b ns key updater opNs opKey opUpdater).1.1 = b.
Proof.
  intros Habs%Bucket_Get_None.
  assert ((UpdateValueAndOperation b ns key updater opNs opKey opUpdater).2 ≠ Ok ())
    as Hnot; [|split; [done|by apply bolt_Update_atomic]].
  unfold UpdateValueAndOperation, bolt.Update, bolt.Begin, updateTxFn.
  destruct (bolt.opened b); [|done].
  destruct (updateTx (bolt.root b) ns key updater) as [tx1 [first|e|p]] eqn:H1;
    simpl; [|done..].
  apply updateTx_Ok in H1 as (v & Hv & _ & _ & Hsome & ->).
  assert (bolt.Bucket_Get (alter (insert key first) ns (bolt.root b)) opNs opKey
          = None) as Hop.
  { rewrite Bucket_Get_alter_insert by done. case_decide as Heq; [|done].
    destruct Heq as [-> ->]. congruence. }
  by destruct (updateTx_absent _ _ _ (SetUpdatedResponse opUpdater first) Hop)
    as [e ->].
Qed.

Lemma UpdateValueAndOperation_op_absent_witness :
  let b := bolt.mkDB {[ "credential" := {[ "k" := [Byte.x00] ]} ]} true None in
  let updater :=
    {| Updater_Update := λ _, Ok [Byte.x01]; Updater_Validate := λ _, Ok () |} in
  let opUpdater := {| SetUpdatedResponse := λ _, updater |} in
  Read (UpdateValueAndOperation b "credential" "k" updater "operation" "op"
          opUpdater).1.1 "credential" "k" = (Some [Byte.x00], Ok ()).
Proof.
  intros b updater opUpdater.
  destruct (UpdateValueAndOperation_op_absent b "credential" "k" updater
              "operation" "op" opUpdater) as [_ ->]; [by left|reflexivity].
Defined.

(** ** MakeNamespace *)

Lemma append_assoc (x y z : string) : (x +:+ y) +:+ z = x +:+ y +:+ z.
Proof.
  induction x as [|a x IH]; [done|].
  change (String a ((x +:+ y) +:+ z) = String a (x +:+ y +:+ z)). by f_equal.
Qed.

Lemma strings_Join_cons (a : string) (rest : list string) (sep : string) :
  rest ≠ [] → strings_Join (a :: rest) sep = a +:+ sep +:+ strings_Join rest sep.
Proof. by destruct rest. Qed.

(** X22: [MakeNamespace] flattens: combining two combined namespaces gives the
    namespace of all the parts, so different lists of parts can name the
    same namespace. *)
Theorem MakeNamespace_flatten (xs ys : list string) :
  xs ≠ [] → ys ≠ [] →
  MakeNamespace [MakeNamespace xs; MakeNamespace ys] = MakeNamespace (xs ++ ys).
Proof.
  unfold MakeNamespace. intros Hxs Hys.
  induction xs as [|a xs IH]; [done|].
  destruct xs as [|x xs].
  - simpl app. by rewrite (strings_Join_cons a ys).
  - rewrite <-app_comm_cons, (strings_Join_cons a ((x :: xs) ++ ys)) by done.
    rewrite <-IH by done.
    rewrite (strings_Join_cons a (x :: xs)) by done.
    simpl. by rewrite !append_assoc.
Qed.

Lemma MakeNamespace_flatten_witness :
  MakeNamespace [MakeNamespace ["credential"; "status"]; MakeNamespace ["list"]]
  = MakeNamespace ["credential"; "status"; "list"].
Proof. by apply (MakeNamespace_flatten ["credential"; "status"] ["list"]). Defined.

(** ** UpdateValueAndOperation: validation and frame *)

(** X23: [Validate] runs before anything is written: when the updater
    rejects the stored blob, [UpdateValueAndOperation] returns that error
    wrapped as "validating update", returns no blob, and the database is
    what it was. *)
Theorem UpdateValueAndOperation_validation_fails (b : BoltDB) (ns key : string)
    (updater : Updater) (opNs opKey : string) (opUpdater : ResponseSettingUpdater)
    (v : bytes) (e : error) :
  bolt.opened b = true →
  (Read b ns key).1 = Some v →
  Updater_Validate updater v = Err e →
  UpdateValueAndOperation b ns key updater opNs opKey opUpdater
  = (b, (None, None), Err (ErrWrap e "validating update")).
Proof.
  intros Ho Hread Hval. rewrite Read_opened in Hread by done. simpl in Hread.
  unfold UpdateValueAndOperation, bolt.Update, bolt.Begin, updateTxFn, updateTx,
    bolt.Tx_Bucket.
  rewrite Ho. unfold bolt.Bucket_Get in Hread.
  destruct (bolt.root b !! ns) as [bk|] eqn:Hns; [|done]. simpl in Hread.
  unfold bolt.Bucket_Get. rewrite Hns. simpl. by rewrite Hread, Hval.
Qed.

Lemma UpdateValueAndOperation_validation_fails_witness :
  let b := bolt.mkDB {[ "credential" := {[ "k" := [Byte.x00] ]} ]} true None in
  let updater :=
    {| Updater_Update := λ _, Ok [Byte.x01];
       Updater_Validate := λ _, Err (ErrNew "rejected") |} in
  let opUpdater := {| SetUpdatedResponse := λ _, updater |} in
  UpdateValueAndOperation b "credential" "k" updater "credential" "k" opUpdater
  = (b, (None, None), Err (ErrWrap (ErrNew "rejected") "validating update")).
Proof.
  intros b updater opUpdater.
  apply (UpdateValueAndOperation_validation_fails b "credential" "k" updater
           "credential" "k" opUpdater [Byte.x00]); reflexivity.
Defined.

(** X24: An [UpdateValueAndOperation] that returned nil changes no key
    other than its two targets. *)
Theorem UpdateValueAndOperation_frame (b b' : BoltDB) (ns key : string)
    (updater : Updater) (opNs opKey : string) (opUpdater : ResponseSettingUpdater)
    (ret : option bytes * option bytes) (ns' k' : string) :
  UpdateValueAndOperation b ns key updater opNs opKey opUpdater = (b', ret, Ok ()) →
  (ns', k') ≠ (ns, key) → (ns', k') ≠ (opNs, opKey) →
  Read b' ns' k' = Read b ns' k'.
Proof.
  unfold UpdateValueAndOperation, bolt.Update, bolt.Begin, updateTxFn.
  destruct (bolt.opened b) eqn:Ho; [|done].
  destruct (updateTx (bolt.root b) ns key updater) as [tx1 [first|e1|p1]] eqn:H1;
    simpl; [|done..].
  destruct (updateTx tx1 opNs opKey (SetUpdatedResponse opUpdater first))
    as [tx2 [op|e2|p2]] eqn:H2; simpl; [|done..].
  unfold bolt.Commit. destruct (bolt.sync_err b); [done|]. intros [= <- <-] Hn1 Hn2.
  apply updateTx_Ok in H1 as (_ & _ & _ & _ & Hsome & ->).
  apply updateTx_Ok in H2 as (_ & _ & _ & _ & Hsome_op & ->).
  rewrite !Read_opened by done. simpl.
  rewrite !Bucket_Get_alter_insert by done.
  rewrite !decide_False; [done| |]; intros [-> ->]; done.
Qed.

Lemma UpdateValueAndOperation_frame_witness :
  let b := bolt.mkDB {[ "credential" := {[ "k" := [Byte.x00]; "k2" := [] ]};
                         "operation" := {[ "op" := [] ]} ]} true None in
  let updater :=
    {| Updater_Update := λ _, Ok [Byte.x01]; Updater_Validate := λ _, Ok () |} in
  let opUpdater := {| SetUpdatedResponse := λ _, updater |} in
  Read (UpdateValueAndOperation b "credential" "k" updater "operation" "op"
          opUpdater).1.1 "credential" "k2" = Read b "credential" "k2".
Proof.
  intros b updater opUpdater.
  apply (UpdateValueAndOperation_frame b _ "credential" "k" updater "operation" "op"
           opUpdater
           (UpdateValueAndOperation b "credential" "k" updater "operation" "op"
              opUpdater).1.2);
    [reflexivity|discriminate|discriminate].
Defined.


(** * The revocation-index pool *)

Section revocation_index.
Import credential.

(** ** The shuffled pool holds no number twice *)

Lemma randomNumbers_loop_spec (n : nat) :
  ∀ i acc, randomNumbers_loop i n acc
           = (acc ++ ((λ j : nat, (i + Z.of_nat j)%Z) <$> seq 0 n))%list.
Proof.
  induction n as [|n IH]; intros i acc; simpl.
  - by rewrite app_nil_r.
  - rewrite IH, <-app_assoc. simpl. do 2 f_equal.
    + f_equal. lia.
    + rewrite <-fmap_S_seq, <-list_fmap_compose. apply list_fmap_ext.
      intros _ j _. simpl. lia.
Qed.

Lemma swap_length (l : list Z) (i j : nat) : length (swap l i j) = length l.
Proof.
  unfold swap. destruct (l !! i), (l !! j); try done.
  by rewrite !length_insert.
Qed.

Lemma swap_lookup (l : list Z) (i j a : nat) (x y : Z) :
  l !! i = Some x → l !! j = Some y →
  swap l i j !! a = if decide (a = i) then Some y
                    else if decide (a = j) then Some x else l !! a.
Proof.
  intros Hi Hj. unfold swap. rewrite Hi, Hj.
  pose proof (lookup_lt_Some _ _ _ Hi). pose proof (lookup_lt_Some _ _ _ Hj).
  rewrite list_lookup_insert, length_insert.
  destruct (decide (a = i)) as [->|Hai].
  - by rewrite decide_True.
  - rewrite decide_False by (intros [? _]; congruence).
    rewrite list_lookup_insert.
    destruct (decide (a = j)) as [->|Haj].
    + by rewrite decide_True.
    + by rewrite decide_False by (intros [? _]; congruence).
Qed.

Lemma swap_NoDup (l : list Z) (i j : nat) : NoDup l → NoDup (swap l i j).
Proof.
  intros Hnd.
  destruct (l !! i) as [x|] eqn:Hi; [|by unfold swap; rewrite Hi].
  destruct (l !! j) as [y|] eqn:Hj; [|by unfold swap; rewrite Hi, Hj].
  apply NoDup_alt. intros a b z.
  rewrite !(swap_lookup l i j _ x y Hi Hj).
  pose proof (proj1 (NoDup_alt l) Hnd) as Hinj.
  repeat case_decide; subst; intros Ha Hb; simplify_eq; try done.
  all: try (by eapply Hinj).
  all: exfalso;
    repeat match goal with
           | H1 : ?l0 !! ?a = Some ?z, H2 : ?l0 !! ?b = Some ?z |- _ =>
               assert (a = b) by (by eapply Hinj); subst; clear H2
           end; congruence.
Qed.

Lemma swap_Forall (Q : Z → Prop) (l : list Z) (i j : nat) :
  Forall Q l → Forall Q (swap l i j).
Proof.
  intros HQ. unfold swap.
  destruct (l !! i) as [x|] eqn:Hi; [|done].
  destruct (l !! j) as [y|] eqn:Hj; [|done].
  rewrite Forall_lookup in HQ.
  apply Forall_insert; [apply Forall_insert; [by apply Forall_lookup|]|]; eauto.
Qed.

Lemma rand_Shuffle_inv (Q : list Z → Prop) (rnd : nat → nat) :
  (∀ l i j, Q l → Q (swap l i j)) →
  ∀ i l, Q l → Q (rand_Shuffle rnd i l).
Proof.
  intros Hswap. induction i as [|i IH]; intros l Hl; simpl; [done|].
  apply IH, Hswap, Hl.
Qed.

(** The pool [randomUniqueNum] builds has [count] numbers, all different
    and all from 1 to [count]. *)
Lemma randomUniqueNum_spec (rnd : nat → nat) (count : Z) :
  NoDup (randomUniqueNum rnd count) ∧
  length (randomUniqueNum rnd count) = Z.to_nat count ∧
  Forall (λ z, 1 ≤ z ≤ count)%Z (randomUniqueNum rnd count).
Proof.
  unfold randomUniqueNum. rewrite randomNumbers_loop_spec. simpl.
  set (l := (λ j : nat, (1 + Z.of_nat j)%Z) <$> seq 0 (Z.to_nat count)).
  assert (NoDup l) as Hnd.
  { apply NoDup_fmap_2; [intros a b; lia|apply NoDup_seq]. }
  assert (length l = Z.to_nat count) as Hlen.
  { unfold l. by rewrite length_fmap, length_seq. }
  assert (Forall (λ z, 1 ≤ z ≤ count)%Z l) as Hrange.
  { apply Forall_fmap, Forall_forall. intros j Hj%elem_of_seq. simpl. lia. }
  split_and!.
  - apply (rand_Shuffle_inv NoDup); [intros; by apply swap_NoDup|done].
  - apply (rand_Shuffle_inv (λ l', length l' = Z.to_nat count)); [|done].
    intros l' i j ?. by rewrite swap_length.
  - apply (rand_Shuffle_inv (Forall _)); [intros; by apply swap_Forall|done].
Qed.

(** ** The pool and the cursor in the store *)

Context `{StatusListJSON} `{!StatusListJSONLaws}.

Lemma Write_Ok_get (b b' : BoltDB) (ns k : string) (v : bytes) :
  Write b ns k v = (b', Ok ()) →
  bolt.opened b = true ∧ bolt.opened b' = true ∧
  bolt.sync_err b' = bolt.sync_err b ∧
  ∀ ns' k', bolt.Bucket_Get (bolt.root b') ns' k' =
    if decide (ns = ns' ∧ k = k') then Some v
    else bolt.Bucket_Get (bolt.root b) ns' k'.
Proof.
  intros (Ho & Hs & tx & Hw & ->)%Write_Ok. simpl. split_and!; [done..|].
  apply (writeFunc_Ok _ _ _ _ _ Hw).
Qed.

Lemma Read_pool_get (cs : BoltDB) (ns k : string) :
  bolt.opened cs = true →
  ReadTx cs ns k = (bolt.Bucket_Get (bolt.root cs) ns k, Ok ()).
Proof. apply Read_opened. Qed.

(** [NewCredentialStorage] leaves the pool it drew and the cursor 0 in
    the store, and touches no other namespace. *)
Lemma NewCredentialStorage_pool (rnd : nat → nat) (db : option BoltDB)
    (cs : BoltDB) :
  NewCredentialStorage rnd db = (Some cs, Ok ()) →
  pool_at (randomUniqueNum rnd bitStringLength) 0 cs ∧
  ∃ db0, db = Some db0 ∧ bolt.sync_err cs = bolt.sync_err db0 ∧
    ∀ ns k, ns ≠ statusListIndexNamespace →
            bolt.Bucket_Get (bolt.root cs) ns k = bolt.Bucket_Get (bolt.root db0) ns k.
Proof.
  unfold NewCredentialStorage. destruct db as [db0|]; [|done].
  destruct (Marshal_ints _) as [e|uniqueNumBytes] eqn:HmP; [done|].
  destruct (Write db0 _ _ uniqueNumBytes) as [db1 [[]|e|p]] eqn:HW1; [|done..].
  destruct (Marshal_StatusListIndex 0) as [e|statusListIndexBytes] eqn:Hm0; [done|].
  destruct (Write db1 _ _ statusListIndexBytes) as [db2 [[]|e|p]] eqn:HW2; [|done..].
  intros [= <-].
  apply Write_Ok_get in HW1 as (_ & Ho1 & Hs1 & Hg1).
  apply Write_Ok_get in HW2 as (_ & Ho2 & Hs2 & Hg2).
  split.
  - split; [done|]. exists uniqueNumBytes, statusListIndexBytes. split_and!.
    + rewrite Hg2, Hg1. rewrite decide_False by (by intros [_ ?]).
      by rewrite decide_True.
    + by apply ints_roundtrip.
    + rewrite Hg2. by rewrite decide_True.
    + by apply index_roundtrip.
  - exists db0. split_and!; [done|congruence|].
    intros ns k Hns. rewrite Hg2, Hg1.
    rewrite !decide_False; [done|by intros [? _]..].
Qed.

(** A successful [GetNextStatusListRandomIndex] returns the pool's
    number under the cursor. *)
Lemma GetNextStatusListRandomIndex_pool (P : list Z) (k : nat) (cs : BoltDB) (i : Z) :
  pool_at P k cs → GetNextStatusListRandomIndex cs = Ok i → P !! k = Some i.
Proof.
  intros (Ho & bP & bk & HgP & HuP & Hgk & Huk).
  unfold GetNextStatusListRandomIndex.
  rewrite !Read_pool_get by done. rewrite HgP, Hgk. simpl.
  case_decide; [done|]. rewrite HuP, Huk.
  destruct (Z.of_nat k <? 0)%Z; [done|]. rewrite Nat2Z.id.
  destruct (P !! k); [|done]. congruence.
Qed.

(** The write [GetIncrementStatusListIndexWriteContext] prepares sets
    the cursor to one more. *)
Lemma GetIncrementStatusListIndexWriteContext_pool (P : list Z) (k : nat)
    (cs : BoltDB) (wc : WriteContext) :
  pool_at P k cs → (Z.of_nat k < 2 ^ 62)%Z →
  GetIncrementStatusListIndexWriteContext cs = Ok wc →
  namespace wc = statusListIndexNamespace ∧ key wc = currentListIndexKey ∧
  Unmarshal_StatusListIndex (value wc) = inr (Z.of_nat (S k)).
Proof.
  intros (Ho & bP & bk & HgP & HuP & Hgk & Huk) Hk.
  unfold GetIncrementStatusListIndexWriteContext.
  rewrite !Read_pool_get by done. rewrite Hgk. simpl. rewrite Huk.
  destruct (Marshal_StatusListIndex _) as [e|b'] eqn:Hm; [done|].
  intros [= <-]. simpl. split_and!; [done..|].
  apply index_roundtrip in Hm. rewrite Hm. f_equal.
  unfold int_wrap. rewrite Z.mod_small; lia.
Qed.

(** What a successful [Storage.WriteMany] leaves for a key. *)
Lemma Storage_WriteMany_Ok (cs cs' : BoltDB) (wcs : list WriteContext) :
  Storage_WriteMany cs wcs = (cs', Ok ()) →
  bolt.opened cs' = true ∧
  ∀ ns k, bolt.Bucket_Get (bolt.root cs') ns k =
    match last_write (batch (namespace <$> wcs) (key <$> wcs) (value <$> wcs)) ns k with
    | Some v => Some v
    | None => bolt.Bucket_Get (bolt.root cs) ns k
    end.
Proof.
  unfold Storage_WriteMany. intros HW.
  destruct (WriteMany_atomic_last_write cs (namespace <$> wcs) (key <$> wcs)
              (value <$> wcs)) as [[_ Hread]|[Herr _]].
  - by rewrite !length_fmap.
  - by rewrite !length_fmap.
  - rewrite HW in Hread. simpl in Hread.
    assert (bolt.opened cs' = true) as Ho'.
    { specialize (Hread "" ""). unfold Read, bolt.View, bolt.Begin in Hread.
      by destruct (bolt.opened cs'). }
    assert (bolt.opened cs = true) as Ho.
    { unfold WriteMany in HW. destruct (_ && _); [done|].
      unfold bolt.Update, bolt.Begin in HW. by destruct (bolt.opened cs). }
    split; [done|]. intros ns k. specialize (Hread ns k).
    rewrite !Read_opened in Hread by done. simpl in Hread. congruence.
  - by rewrite HW in Herr.
Qed.

(** One successful [issue] on a store that holds the pool: a revocable
    credential takes the number under the cursor and the cursor moves by
    one; another credential takes none and the cursor stays. *)
Lemma issue_pool (P : list Z) (k : nat) (cs cs' : BoltDB) (req : IssueRequest)
    (c : IssuedCredential) :
  pool_at P k cs → (Z.of_nat (length P) < 2 ^ 62)%Z →
  issue cs req = (cs', Ok c) →
  (statusListIndex c = None ∧ pool_at P k cs') ∨
  (∃ i, statusListIndex c = Some i ∧ P !! k = Some i ∧ pool_at P (S k) cs').
Proof.
  intros Hpool Hlen. unfold issue.
  destruct (decide (req_subject req = "")); [done|].
  destruct (req_revocable req).
  - destruct (GetNextStatusListRandomIndex cs) as [i|e|p] eqn:Hnext; [|done..].
    pose proof (GetNextStatusListRandomIndex_pool _ _ _ _ Hpool Hnext) as Hi.
    pose proof (lookup_lt_Some _ _ _ Hi) as Hk.
    destruct (GetIncrementStatusListIndexWriteContext cs) as [wc|e|p] eqn:Hinc;
      [|done..].
    apply (GetIncrementStatusListIndexWriteContext_pool P k) in Hinc
      as (Hwns & Hwk & Hwv); [|done|lia].
    destruct (Storage_WriteMany cs _) as [cs1 [[]|e|p]] eqn:HW; [|done..].
    intros [= <- <-]. right. exists i. split_and!; [done..|].
    apply Storage_WriteMany_Ok in HW as [Ho' Hget].
    destruct Hpool as (Ho & bP & bk & HgP & HuP & Hgk & Huk).
    split; [done|]. exists bP, (value wc).
    destruct wc as [wns wk wv]. simpl in *. subst wns wk.
    split_and!; [|done| |done].
    + rewrite Hget, <-HgP.
      destruct (req_status_list req) as [[k0 v0]|]; simpl;
        repeat (case_decide; try done);
        repeat match goal with Hc : _ ∧ _ |- _ => destruct Hc end; done.
    + rewrite Hget.
      destruct (req_status_list req) as [[k0 v0]|]; simpl;
        repeat (case_decide; try done);
        repeat match goal with Hc : _ ∧ _ |- _ => destruct Hc end; done.
  - destruct (Write cs _ _ _) as [cs1 [[]|e|p]] eqn:HW; [|done..].
    intros [= <- <-]. left. split; [done|].
    apply Write_Ok_get in HW as (_ & Ho' & _ & Hget).
    destruct Hpool as (Ho & bP & bk & HgP & HuP & Hgk & Huk).
    split; [done|]. exists bP, bk. rewrite !Hget.
    rewrite !decide_False; [done|by intros [? _]..].
Qed.

(** The indices a run of issues hands out are numbers of the pool, in
    the pool's order from the cursor on. *)
Lemma issue_all_indices (P : list Z) (reqs : list IssueRequest) :
  (Z.of_nat (length P) < 2 ^ 62)%Z →
  ∀ k cs cs' cs_issued,
    pool_at P k cs → issue_all cs reqs = (cs', Ok cs_issued) →
    omap statusListIndex cs_issued `sublist_of` drop k P.
Proof.
  intros Hlen. induction reqs as [|req reqs IH]; intros k cs cs' l Hpool; simpl.
  - intros [= <- <-]. apply sublist_nil_l.
  - destruct (issue cs req) as [cs1 [c|e|p]] eqn:Hissue; [|done..].
    destruct (issue_all cs1 reqs) as [cs2 [l'|e|p]] eqn:Hrest; [|done..].
    intros [= <- <-]. simpl.
    apply (issue_pool P k) in Hissue as [[-> Hpool']|(i & -> & Hi & Hpool')];
      [| |done..].
    + by apply (IH k cs1 cs2).
    + rewrite (drop_S _ _ _ Hi). apply sublist_skip. by apply (IH (S k) cs1 cs2).
Qed.

Lemma omap_NoDup_lookup {A B} (f : A → option B) (l : list A) :
  NoDup (omap f l) →
  ∀ m n a b x y, l !! m = Some a → l !! n = Some b → m ≠ n →
                 f a = Some x → f b = Some y → x ≠ y.
Proof.
  induction l as [|a0 l IH]; intros Hnd m n a b x y Hm Hn Hmn Hx Hy; [done|].
  simpl in Hnd.
  assert (NoDup (omap f l)) as Hnd'.
  { destruct (f a0); [by apply NoDup_cons in Hnd as [_ ?]|done]. }
  destruct m as [|m], n as [|n]; simpl in *; simplify_eq.
  - rewrite Hx in Hnd. apply NoDup_cons in Hnd as [Hnotin _]. intros ->.
    apply Hnotin, list_elem_of_omap. exists b. split; [|done].
    by eapply list_elem_of_lookup_2.
  - rewrite Hy in Hnd. apply NoDup_cons in Hnd as [Hnotin _]. intros ->.
    apply Hnotin, list_elem_of_omap. exists a. split; [|done].
    by eapply list_elem_of_lookup_2.
  - eapply (IH Hnd' m n); eauto.
Qed.

Lemma bitStringLength_bound (rnd : nat → nat) :
  (Z.of_nat (length (randomUniqueNum rnd bitStringLength)) < 2 ^ 62)%Z.
Proof.
  destruct (randomUniqueNum_spec rnd bitStringLength) as (_ & -> & _).
  rewrite Z2Nat.id by done. done.
Qed.

(** C8, amended: after a construction of the credential storage, in any
    sequence of issues that all succeed, two different issued credentials
    that are revocable and belong to the same (issuer, schema) have
    different revocation indices. *)
Theorem issue_unique_revocation_index (rnd : nat → nat) (db : option BoltDB)
    (cs cs' : BoltDB) (reqs : list IssueRequest)
    (cs_issued : list IssuedCredential) (m n : nat) (c1 c2 : IssuedCredential)
    (i1 i2 : Z) :
  NewCredentialStorage rnd db = (Some cs, Ok ()) →
  issue_all cs reqs = (cs', Ok cs_issued) →
  cs_issued !! m = Some c1 → cs_issued !! n = Some c2 → m ≠ n →
  statusListIndex c1 = Some i1 → statusListIndex c2 = Some i2 →
  Issuer c1 = Issuer c2 → Schema c1 = Schema c2 →
  i1 ≠ i2.
Proof.
  intros [Hpool _]%NewCredentialStorage_pool Hrun Hm Hn Hmn Hs1 Hs2 _ _.
  apply (issue_all_indices _ _ (bitStringLength_bound rnd) 0 _ _ _ Hpool) in Hrun.
  rewrite drop_0 in Hrun.
  eapply (omap_NoDup_lookup statusListIndex cs_issued); [|exact Hm|exact Hn|done..].
  eapply sublist_NoDup; [|exact Hrun]. apply randomUniqueNum_spec.
Qed.

End revocation_index.

(** ** A run with the codec of fixed width *)

Section fixed_width.
Import credential.

Lemma byte_of_N_to_N (n : N) : (n < 256)%N → Byte.to_N (byte_of_N n) = n.
Proof.
  intros Hn. unfold byte_of_N. destruct (Byte.of_N n) as [b|] eqn:Hb; simpl.
  - by apply Byte.to_of_N.
  - apply Byte.of_N_None_iff in Hb. lia.
Qed.

Lemma decode_encode_int (z : Z) :
  encodable z = true →
  match encode_int z with
  | [b2; b1; b0] => decode_int b2 b1 b0 = z
  | _ => False
  end.
Proof.
  unfold encodable, encode_int, decode_int. intros [Hz0 Hz1]%andb_true_iff.
  apply Z.leb_le in Hz0. apply Z.ltb_lt in Hz1.
  assert (Z.to_N z < 16777216)%N as Hn by lia.
  rewrite !byte_of_N_to_N.
  - pose proof (N.div_mod (Z.to_N z) 256). pose proof (N.div_mod (Z.to_N z / 256) 256).
    assert (Z.to_N z / 65536 = Z.to_N z / 256 / 256)%N as ->.
    { by rewrite N.Div0.div_div. }
    lia.
  - apply N.mod_lt. done.
  - apply N.mod_lt. done.
  - apply N.Div0.div_lt_upper_bound; lia.
Qed.

Lemma decode_encode_ints (l : list Z) :
  forallb encodable l = true → decode_ints (mjoin (encode_int <$> l)) = inr l.
Proof.
  induction l as [|z l IH]; [done|].
  intros [Hz Hl]%andb_true_iff.
  rewrite fmap_cons.
  change (mjoin (encode_int z :: (encode_int <$> l)))
    with (encode_int z ++ mjoin (encode_int <$> l))%list.
  pose proof (decode_encode_int z Hz) as Hdec.
  destruct (encode_int z) as [|b2 [|b1 [|b0 [|]]]]; try done.
  change (decode_ints ([b2; b1; b0] ++ mjoin (encode_int <$> l))%list)
    with (match decode_ints (mjoin (encode_int <$> l)) with
          | inr l => inr (decode_int b2 b1 b0 :: l)
          | inl err => inl err
          end).
  by rewrite (IH Hl), Hdec.
Qed.

Lemma fixed_width_codec_laws : @StatusListJSONLaws fixed_width_codec.
Proof.
  split; simpl.
  - intros l bs. destruct (forallb encodable l) eqn:Hl; [|done].
    intros [= <-]. by apply decode_encode_ints.
  - intros i bs. destruct (encodable i) eqn:Hi; [|done]. intros [= <-].
    pose proof (decode_encode_int i Hi) as Hdec.
    destruct (encode_int i) as [|b2 [|b1 [|b0 [|]]]]; try done. simpl.
    by rewrite Hdec.
Qed.

Lemma length_encode_ints (l : list Z) :
  length (mjoin (encode_int <$> l)) = (3 * length l)%nat.
Proof.
  induction l as [|z l IH]; [done|]. rewrite fmap_cons.
  change (mjoin (encode_int z :: (encode_int <$> l)))
    with (encode_int z ++ mjoin (encode_int <$> l))%list.
  rewrite length_app, IH. simpl. lia.
Qed.

(** A write within bbolt's limits on an open store whose commits go
    through succeeds. *)
Lemma Write_succeeds (b : BoltDB) (ns k : string) (v : bytes) :
  bolt.opened b = true → bolt.sync_err b = None → ns ≠ "" → k ≠ "" →
  (Z.of_nat (String.length k) ≤ bolt.MaxKeySize)%Z →
  (Z.of_nat (length v) ≤ bolt.MaxValueSize)%Z →
  ∃ b', Write b ns k v = (b', Ok ()) ∧ bolt.sync_err b' = None.
Proof.
  intros Ho Hs Hns Hk Hlk Hlv.
  assert (∀ tx : bolt.Tx, ∃ tx', writeFunc ns k v tx = (tx', Ok ())) as Hw.
  { intros tx. unfold writeFunc, bolt.Tx_CreateBucketIfNotExists, bolt.Bucket_Put.
    rewrite decide_False by done.
    destruct (tx !! ns); rewrite decide_False by done;
      (destruct (Z.gtb_spec (Z.of_nat (String.length k)) bolt.MaxKeySize); [lia|]);
      (destruct (Z.gtb_spec (Z.of_nat (length v)) bolt.MaxValueSize); [lia|]);
      by eexists. }
  destruct (Hw (bolt.root b)) as [tx' Hw'].
  exists (bolt.mkDB tx' (bolt.opened b) (bolt.sync_err b)). split; [|done].
  apply Write_Ok. split_and!; [done..|]. by exists tx'.
Qed.

Lemma WriteMany_loop_succeeds (rest : list string) :
  ∀ i keys values (tx : bolt.Tx),
    (∀ j ns, rest !! j = Some ns →
       ns ≠ "" ∧ ∃ k v, keys !! (i + j)%nat = Some k ∧ values !! (i + j)%nat = Some v ∧
         k ≠ "" ∧ (Z.of_nat (String.length k) ≤ bolt.MaxKeySize)%Z ∧
         (Z.of_nat (length v) ≤ bolt.MaxValueSize)%Z) →
    ∃ tx', WriteMany_loop rest i keys values tx = (tx', Ok ()).
Proof.
  induction rest as [|ns rest IH]; intros i keys values tx Hall; [by eexists|].
  destruct (Hall 0%nat ns eq_refl) as (Hns & k & v & Hk & Hv & Hk0 & Hlk & Hlv).
  rewrite Nat.add_0_r in Hk, Hv.
  rewrite (WriteMany_loop_cons _ _ _ _ _ _ _ _ Hk Hv).
  unfold writeFunc, bolt.Tx_CreateBucketIfNotExists, bolt.Bucket_Put.
  rewrite decide_False by done.
  assert (∀ j ns0, rest !! j = Some ns0 →
       ns0 ≠ "" ∧ ∃ k v, keys !! (S i + j)%nat = Some k ∧ values !! (S i + j)%nat = Some v ∧
         k ≠ "" ∧ (Z.of_nat (String.length k) ≤ bolt.MaxKeySize)%Z ∧
         (Z.of_nat (length v) ≤ bolt.MaxValueSize)%Z) as Hall'.
  { intros j ns0 Hj. specialize (Hall (S j) ns0 Hj).
    by replace (i + S j)%nat with (S i + j)%nat in Hall by lia. }
  destruct (tx !! ns); rewrite decide_False by done;
    (destruct (Z.gtb_spec (Z.of_nat (String.length k)) bolt.MaxKeySize); [lia|]);
    (destruct (Z.gtb_spec (Z.of_nat (length v)) bolt.MaxValueSize); [lia|]);
    by apply IH.
Qed.

Lemma Storage_WriteMany_succeeds `{StatusListJSON} (cs : BoltDB)
    (wcs : list WriteContext) :
  bolt.opened cs = true → bolt.sync_err cs = None →
  Forall (λ wc, namespace wc ≠ "" ∧ key wc ≠ "" ∧
                (Z.of_nat (String.length (key wc)) ≤ bolt.MaxKeySize)%Z ∧
                (Z.of_nat (length (value wc)) ≤ bolt.MaxValueSize)%Z) wcs →
  ∃ cs', Storage_WriteMany cs wcs = (cs', Ok ()) ∧ bolt.sync_err cs' = None.
Proof.
  intros Ho Hs Hall. unfold Storage_WriteMany, WriteMany.
  rewrite (bool_decide_eq_false_2 (length (namespace <$> wcs) ≠ length (key <$> wcs)))
    by (rewrite !length_fmap; tauto).
  simpl.
  destruct (WriteMany_loop_succeeds (namespace <$> wcs) 0 (key <$> wcs) (value <$> wcs)
              (bolt.root cs)) as [tx' Hl].
  { intros j ns Hj. rewrite list_lookup_fmap in Hj.
    destruct (wcs !! j) as [wc|] eqn:Hwc; [|done]. simpl in Hj. injection Hj as <-.
    rewrite Forall_lookup in Hall. destruct (Hall j wc Hwc) as (? & ? & ? & ?).
    split; [done|]. exists (key wc), (value wc). simpl.
    rewrite !list_lookup_fmap, Hwc. done. }
  exists (bolt.mkDB tx' (bolt.opened cs) (bolt.sync_err cs)). split; [|done].
  assert (bolt.Update cs (closure0 (WriteMany_loop (namespace <$> wcs) 0
            (key <$> wcs) (value <$> wcs))) ()
          = (bolt.mkDB tx' (bolt.opened cs) (bolt.sync_err cs), (), Ok ())) as ->; [|done].
  apply Update_closure0_Ok. split_and!; [done..|]. by exists tx'.
Qed.

(** What a revocable [issue] leaves in the credential namespace: the new
    credential under its key, every other key as before. *)
Lemma issue_stores `{StatusListJSON} (cs cs' : BoltDB) (req : IssueRequest)
    (c : IssuedCredential) :
  issue cs req = (cs', Ok c) → req_revocable req = true →
  c = issued req (statusListIndex c) ∧
  bolt.opened cs' = true ∧
  bolt.Bucket_Get (bolt.root cs') credentialNamespace (ID c)
  = Some (req_stored req (statusListIndex c)) ∧
  ∀ k, k ≠ ID c →
       bolt.Bucket_Get (bolt.root cs') credentialNamespace k
       = bolt.Bucket_Get (bolt.root cs) credentialNamespace k.
Proof.
  unfold issue. intros Hi Hrev. rewrite Hrev in Hi.
  destruct (decide (req_subject req = "")); [done|].
  destruct (GetNextStatusListRandomIndex cs) as [i| |]; [|done..].
  destruct (GetIncrementStatusListIndexWriteContext cs) as [wc| |] eqn:Hwc; [|done..].
  assert (namespace wc = statusListIndexNamespace) as Hns.
  { unfold GetIncrementStatusListIndexWriteContext in Hwc.
    destruct (ReadTx cs _ _) as [? [[]| |]]; [|done..].
    destruct (Unmarshal_StatusListIndex _); [done|].
    destruct (Marshal_StatusListIndex _); [done|]. by injection Hwc as <-. }
  destruct (Storage_WriteMany cs _) as [cs1 [[]| |]] eqn:HW; [|done..].
  injection Hi as -> <-. apply Storage_WriteMany_Ok in HW. destruct HW as [Ho HW].
  split; [done|]. split; [done|].
  assert (∀ k, bolt.Bucket_Get (bolt.root cs') credentialNamespace k =
               if decide (ID (issued req (Some i)) = k)
               then Some (req_stored req (Some i))
               else bolt.Bucket_Get (bolt.root cs) credentialNamespace k) as Hget.
  { intros k. rewrite HW.
    destruct (req_status_list req) as [[k0 v0]|]; simpl; rewrite Hns;
      repeat (case_decide; try done);
      repeat match goal with Hc : _ ∧ _ |- _ => destruct Hc end;
      try done; exfalso; eauto. }
  split.
  - rewrite Hget. by rewrite decide_True.
  - intros k Hk. rewrite Hget. by rewrite decide_False.
Qed.

Lemma forallb_encodable (l : list Z) :
  Forall (λ z, 1 ≤ z ≤ bitStringLength)%Z l → forallb encodable l = true.
Proof.
  induction 1 as [|z l Hz _ IH]; [done|]. simpl. apply andb_true_iff.
  split; [|done]. unfold encodable, bitStringLength in *. apply andb_true_iff.
  split; [apply Z.leb_le|apply Z.ltb_lt]; lia.
Qed.

(** With the codec of fixed width, on an open store whose commits go
    through, the construction succeeds. *)
Lemma NewCredentialStorage_succeeds (rnd : nat → nat) (db : BoltDB) :
  bolt.opened db = true → bolt.sync_err db = None →
  ∃ cs, @NewCredentialStorage fixed_width_codec rnd (Some db) = (Some cs, Ok ()) ∧
        bolt.sync_err cs = None.
Proof.
  intros Ho Hs. unfold NewCredentialStorage.
  destruct (randomUniqueNum_spec rnd bitStringLength) as (_ & Hlen & Hran).
  set (P := randomUniqueNum rnd bitStringLength) in *.
  assert (forallb encodable P = true) as Hall.
  { by apply forallb_encodable. }
  assert (Z.of_nat (length P) = 131072%Z) as HlenZ.
  { rewrite Hlen. unfold bitStringLength. lia. }
  clearbody P.
  assert (@Marshal_ints fixed_width_codec P = inr (mjoin (encode_int <$> P))) as ->.
  { simpl. by rewrite Hall. }
  destruct (Write_succeeds db statusListIndexNamespace statusListIndexesKey
              (mjoin (encode_int <$> P))) as (db1 & Hw1 & Hs1); [done..| | |].
  { by vm_compute. }
  { rewrite length_encode_ints. unfold bolt.MaxValueSize. lia. }
  rewrite Hw1.
  assert (@Marshal_StatusListIndex fixed_width_codec 0 = inr (encode_int 0)) as ->
    by done.
  apply Write_Ok_get in Hw1. destruct Hw1 as (_ & Ho1 & _).
  destruct (Write_succeeds db1 statusListIndexNamespace currentListIndexKey
              (encode_int 0)) as (db2 & Hw2 & Hs2); [done..| | |].
  { by vm_compute. }
  { by vm_compute. }
  rewrite Hw2. by exists db2.
Qed.

Lemma int_wrap_small (z : Z) : (- 2 ^ 63 ≤ z < 2 ^ 63)%Z → int_wrap z = z.
Proof. intros Hz. unfold int_wrap. rewrite Z.mod_small; lia. Qed.

(** With the codec of fixed width, a revocable [issue] within bbolt's
    limits succeeds while the cursor is within the pool, and takes the
    number at the cursor. *)
Lemma issue_revocable_succeeds (P : list Z) (k : nat) (cs : BoltDB)
    (req : IssueRequest) :
  @pool_at fixed_width_codec P k cs → bolt.sync_err cs = None →
  (k < length P)%nat → (Z.of_nat (length P) < 2 ^ 23)%Z →
  req_subject req ≠ "" → req_revocable req = true →
  (∀ i, ID (issued req None) ≠ "" ∧
        (Z.of_nat (String.length (ID (issued req None))) ≤ bolt.MaxKeySize)%Z ∧
        (Z.of_nat (length (req_stored req i)) ≤ bolt.MaxValueSize)%Z) →
  (∀ k0 v0, req_status_list req = Some (k0, v0) →
        k0 ≠ "" ∧ (Z.of_nat (String.length k0) ≤ bolt.MaxKeySize)%Z ∧
        (Z.of_nat (length v0) ≤ bolt.MaxValueSize)%Z) →
  ∃ cs' i, @issue fixed_width_codec cs req = (cs', Ok (issued req (Some i))) ∧
           P !! k = Some i ∧ bolt.sync_err cs' = None.
Proof.
  intros (Ho & bP & bk & HgP & HuP & Hgk & Huk) Hs Hk HP Hsub Hrev Hst Hsl.
  destruct (lookup_lt_is_Some_2 P k Hk) as [i Hi].
  assert (@GetNextStatusListRandomIndex fixed_width_codec cs = Ok i) as Hnext.
  { unfold GetNextStatusListRandomIndex.
    rewrite !Read_pool_get by done. rewrite HgP, Hgk. simpl slice.
    rewrite decide_False.
    2:{ destruct bP; [|done]. simpl in HuP. injection HuP as <-. simpl in Hk. lia. }
    rewrite HuP, Huk.
    destruct (Z.ltb_spec (Z.of_nat k) 0); [lia|]. by rewrite Nat2Z.id, Hi. }
  assert (@GetIncrementStatusListIndexWriteContext fixed_width_codec cs
          = Ok {| namespace := statusListIndexNamespace; key := currentListIndexKey;
                  value := encode_int (Z.of_nat k + 1) |}) as Hinc.
  { unfold GetIncrementStatusListIndexWriteContext.
    rewrite Read_pool_get by done. rewrite Hgk. simpl slice. rewrite Huk.
    rewrite int_wrap_small by lia.
    assert (@Marshal_StatusListIndex fixed_width_codec (Z.of_nat k + 1)
            = inr (encode_int (Z.of_nat k + 1))) as ->; [|done].
    simpl. unfold encodable.
    destruct (Z.leb_spec 0 (Z.of_nat k + 1)); [|lia].
    destruct (Z.ltb_spec (Z.of_nat k + 1) (2 ^ 24)); [done|lia]. }
  unfold issue. rewrite decide_False by done. rewrite Hrev, Hnext, Hinc.
  destruct (Hst (Some i)) as (Hid & Hidl & Hvl).
  match goal with
  | |- context [Storage_WriteMany cs ?wcs] =>
      destruct (@Storage_WriteMany_succeeds fixed_width_codec cs wcs Ho Hs)
        as (cs' & HW & Hs')
  end.
  { repeat apply Forall_cons_2.
    - split_and!; done.
    - split_and!; [done..|by vm_compute|by vm_compute].
    - destruct (req_status_list req) as [[k0 v0]|] eqn:Hr; [|by apply Forall_nil].
      destruct (Hsl k0 v0 eq_refl) as (? & ? & ?).
      apply Forall_singleton. split_and!; done. }
  rewrite HW. by exists cs', i.
Qed.

Lemma String_length_append (s t : string) :
  String.length (s +:+ t) = (String.length s + String.length t)%nat.
Proof. induction s as [|a s IH]; [done|]. simpl. by rewrite IH. Qed.

(** The requests of the runs are within bbolt's limits. *)
Lemma revocable_request_limits (id : string) :
  id ≠ "" → (Z.of_nat (String.length id) ≤ 1024)%Z →
  ∀ i, ID (issued (revocable_request id) None) ≠ "" ∧
       (Z.of_nat (String.length (ID (issued (revocable_request id) None)))
        ≤ bolt.MaxKeySize)%Z ∧
       (Z.of_nat (length (req_stored (revocable_request id) i)) ≤ bolt.MaxValueSize)%Z.
Proof.
  intros Hid Hlen i. unfold issued, revocable_request, createPrefixKey. simpl ID.
  split_and!.
  - destruct id; done.
  - rewrite String_length_append. simpl. unfold bolt.MaxKeySize. lia.
  - by vm_compute.
Qed.

(** A start on an open store and one revocable issue: the credential
    takes the first number of the pool and is stored. *)
Lemma start_then_issue (rnd : nat → nat) (db : BoltDB) (id : string) :
  bolt.opened db = true → bolt.sync_err db = None →
  id ≠ "" → (Z.of_nat (String.length id) ≤ 1024)%Z →
  ∃ cs cs' i,
    @NewCredentialStorage fixed_width_codec rnd (Some db) = (Some cs, Ok ()) ∧
    @issue fixed_width_codec cs (revocable_request id)
    = (cs', Ok (issued (revocable_request id) (Some i))) ∧
    randomUniqueNum rnd bitStringLength !! 0%nat = Some i ∧
    @pool_at fixed_width_codec (randomUniqueNum rnd bitStringLength) 1 cs' ∧
    bolt.sync_err cs' = None ∧
    (∀ ns k, ns ≠ statusListIndexNamespace →
       bolt.Bucket_Get (bolt.root cs) ns k = bolt.Bucket_Get (bolt.root db) ns k).
Proof.
  intros Ho Hs Hid Hlen.
  destruct (NewCredentialStorage_succeeds rnd db Ho Hs) as (cs & Hnew & Hs0).
  destruct (@NewCredentialStorage_pool fixed_width_codec fixed_width_codec_laws
              rnd (Some db) cs Hnew) as (Hpool & db0 & [= <-] & _ & Hframe).
  destruct (randomUniqueNum_spec rnd bitStringLength) as (_ & HlenP & _).
  assert (Z.of_nat (length (randomUniqueNum rnd bitStringLength)) = 131072%Z) as HlenZ.
  { rewrite HlenP. unfold bitStringLength. lia. }
  revert Hpool HlenZ. generalize (randomUniqueNum rnd bitStringLength) as P.
  intros P Hpool HlenZ.
  destruct (issue_revocable_succeeds P 0 cs (revocable_request id) Hpool Hs0)
    as (cs' & i & Hi & HP & Hs'); [lia|lia|done|done| |done|].
  { by apply revocable_request_limits. }
  exists cs, cs', i. split_and!; [done..| |done|done].
  destruct (@issue_pool fixed_width_codec fixed_width_codec_laws P 0 cs cs'
              (revocable_request id) _ Hpool ltac:(lia) Hi)
    as [[Hc _]|(? & _ & _ & Hp)]; done.
Qed.

(** A run of the amended C8: the credential storage is constructed on an
    empty open store and two revocable credentials of one issuer and
    schema are issued; their revocation indices differ. *)
Lemma issue_unique_revocation_index_witness :
  let rnd := λ i : nat, (7 * i + 3)%nat in
  let db := bolt.mkDB ∅ true None in
  ∃ cs cs' c1 c2 i1 i2,
    @NewCredentialStorage fixed_width_codec rnd (Some db) = (Some cs, Ok ()) ∧
    @issue_all fixed_width_codec cs [revocable_request "c1"; revocable_request "c2"]
    = (cs', Ok [c1; c2]) ∧
    statusListIndex c1 = Some i1 ∧ statusListIndex c2 = Some i2 ∧
    Issuer c1 = Issuer c2 ∧ Schema c1 = Schema c2 ∧
    i1 ≠ i2.
Proof.
  intros rnd db.
  assert (bolt.opened db = true) as Ho by reflexivity.
  assert (bolt.sync_err db = None) as Hs by reflexivity.
  clearbody rnd db.
  destruct (start_then_issue rnd db "c1" Ho Hs)
    as (cs & cs1 & i1 & Hnew & Hi1 & _ & Hpool & Hs1 & _);
    [discriminate|simpl; lia|].
  destruct (randomUniqueNum_spec rnd bitStringLength) as (_ & Hlen & _).
  destruct (issue_revocable_succeeds (randomUniqueNum rnd bitStringLength) 1 cs1
              (revocable_request "c2") Hpool Hs1)
    as (cs2 & i2 & Hi2 & _ & _).
  { rewrite Hlen. unfold bitStringLength. lia. }
  { rewrite Hlen. unfold bitStringLength. lia. }
  { discriminate. }
  { reflexivity. }
  { apply revocable_request_limits; [discriminate|simpl; lia]. }
  { discriminate. }
  assert (@issue_all fixed_width_codec cs [revocable_request "c1"; revocable_request "c2"]
          = (cs2, Ok [issued (revocable_request "c1") (Some i1);
                      issued (revocable_request "c2") (Some i2)])) as Hall.
  { unfold issue_all. rewrite Hi1, Hi2. reflexivity. }
  exists cs, cs2, (issued (revocable_request "c1") (Some i1)),
    (issued (revocable_request "c2") (Some i2)), i1, i2.
  split_and!; [exact Hnew|exact Hall|reflexivity..|].
  exact (@issue_unique_revocation_index fixed_width_codec fixed_width_codec_laws
           rnd (Some db) cs cs2 _ _ 0%nat 1%nat _ _ i1 i2 Hnew Hall eq_refl eq_refl
           ltac:(discriminate) eq_refl eq_refl eq_refl eq_refl).
Defined.

(** C8 as stated fails across a restart.  A revocable credential is
    issued; the credential storage is constructed again on the same store,
    the random source drawing the same numbers, which writes the pool
    again and puts the cursor back to 0; a second revocable credential of
    the same issuer and schema is issued.  Both credentials are in the
    store, under different keys, with the same revocation index. *)
Lemma restart_reuses_revocation_index :
  let rnd := λ i : nat, (7 * i + 3)%nat in
  let db := bolt.mkDB ∅ true None in
  ∃ cs cs1 cs2 cs3 c1 c2 i,
    @NewCredentialStorage fixed_width_codec rnd (Some db) = (Some cs, Ok ()) ∧
    @issue fixed_width_codec cs (revocable_request "c1") = (cs1, Ok c1) ∧
    @NewCredentialStorage fixed_width_codec rnd (Some cs1) = (Some cs2, Ok ()) ∧
    @issue fixed_width_codec cs2 (revocable_request "c2") = (cs3, Ok c2) ∧
    ID c1 ≠ ID c2 ∧ Issuer c1 = Issuer c2 ∧ Schema c1 = Schema c2 ∧
    statusListIndex c1 = Some i ∧ statusListIndex c2 = Some i ∧
    Read cs3 credentialNamespace (ID c1)
    = (Some (req_stored (revocable_request "c1") (Some i)), Ok ()) ∧
    Read cs3 credentialNamespace (ID c2)
    = (Some (req_stored (revocable_request "c2") (Some i)), Ok ()).
Proof.
  intros rnd db.
  assert (bolt.opened db = true) as Ho by reflexivity.
  assert (bolt.sync_err db = None) as Hs by reflexivity.
  clearbody rnd db.
  destruct (start_then_issue rnd db "c1" Ho Hs)
    as (cs & cs1 & i & Hnew & Hi1 & HP & Hpool & Hs1 & _);
    [discriminate|simpl; lia|].
  destruct Hpool as [Ho1 _].
  destruct (start_then_issue rnd cs1 "c2" Ho1 Hs1)
    as (cs2 & cs3 & i' & Hnew2 & Hi2 & HP' & _ & _ & Hframe);
    [discriminate|simpl; lia|].
  assert (i' = i) as ->.
  { rewrite HP in HP'. by injection HP'. }
  exists cs, cs1, cs2, cs3, (issued (revocable_request "c1") (Some i)),
    (issued (revocable_request "c2") (Some i)), i.
  destruct (issue_stores _ _ _ _ Hi1 eq_refl) as (_ & _ & Hg1 & _).
  destruct (issue_stores _ _ _ _ Hi2 eq_refl) as (_ & Ho3 & Hg2 & Hother).
  assert (ID (issued (revocable_request "c1") (Some i))
          ≠ ID (issued (revocable_request "c2") (Some i))) as Hne by discriminate.
  split_and!;
    [exact Hnew|exact Hi1|exact Hnew2|exact Hi2|exact Hne|reflexivity..| |].
  - rewrite Read_opened by exact Ho3. rewrite Hother by exact Hne.
    rewrite Hframe by discriminate. by rewrite Hg1.
  - rewrite Read_opened by exact Ho3. by rewrite Hg2.
Qed.

End fixed_width.
